(** * Describing-function analysis of static nonlinearities (control/nltools.py)

    A shallow embedding of [control.nltools]: the three built-in
    nonlinearities (saturation, relay with hysteresis, backlash), the
    describing-function estimator, the segment-intersection routine and the
    limit-cycle locator.

    Numbers.  Python floats (and the ints that flow into the same
    arithmetic) are modelled as real numbers [R]; comparisons are the
    boolean tests [Rltb], [Rleb], [Reqb].  Two things a float can do and a
    real cannot are kept visible instead of being idealised away:
    - [np.nan], which the relay returns literally, is the value [PyNan];
    - a division by zero has the outcome [NonFinite] (a Python float raises
      ZeroDivisionError there, a NumPy scalar yields inf or nan with a
      RuntimeWarning: no real number either way).
    Rounding is not modelled.

    Effects.  Exceptions are the [Raise] outcome of the [outcome] monad;
    the mutable attributes of a nonlinearity ([branch], [center]) are
    record fields, and every call returns the updated object; warnings
    and plot commands are collected in lists. *)

From Stdlib Require Import Reals Lra Lia ZArith String List Bool.
Import ListNotations.

Open Scope R_scope.

(* ------------------------------------------------------------------ *)
(** ** Boolean comparisons on reals *)

Definition Rltb (x y : R) : bool := if Rlt_dec x y then true else false.
Definition Rleb (x y : R) : bool := if Rle_dec x y then true else false.
Definition Reqb (x y : R) : bool := if Req_dec_T x y then true else false.

(* ------------------------------------------------------------------ *)
(** ** Exceptions, warnings and the outcome monad *)

Inductive exn : Type :=
| ValueError (msg : string)
| IndexError
| UnboundLocalError
| AssertionError.

Inductive outcome (A : Type) : Type :=
| Ret (a : A)
| Raise (e : exn)
| NonFinite.

Arguments Ret {A} a.
Arguments Raise {A} e.
Arguments NonFinite {A}.

Definition bind {A B : Type} (m : outcome A) (k : A -> outcome B) : outcome B :=
  match m with
  | Ret a => k a
  | Raise e => Raise e
  | NonFinite => NonFinite
  end.

Declare Scope outcome_scope.
Delimit Scope outcome_scope with outcome.
Notation "x <- m ;; k" := (bind m (fun x => k))
  (at level 61, m at next level, right associativity) : outcome_scope.
Notation "' p <- m ;; k" := (bind m (fun p => k))
  (at level 61, p pattern, m at next level, right associativity) : outcome_scope.
Open Scope outcome_scope.

(** [warn(msg)]: the message is appended to the list of warnings. *)
Definition warning : Type := string.

(** A list comprehension or [for] loop whose body may raise: the elements
    are processed in order and the first exception ends the loop. *)
Fixpoint mapM {A B : Type} (f : A -> outcome B) (l : list A) : outcome (list B) :=
  match l with
  | [] => Ret []
  | a :: l' => b <- f a ;; bs <- mapM f l' ;; Ret (b :: bs)
  end.

(* ------------------------------------------------------------------ *)
(** ** Complex numbers and Python values *)

Record complex : Type := mkC { re : R; im : R }.

Definition RtoC (x : R) : complex := mkC x 0.
Definition Cj : complex := mkC 0 1.
Definition Cadd (z w : complex) : complex := mkC (re z + re w) (im z + im w).
Definition Csub (z w : complex) : complex := mkC (re z - re w) (im z - im w).
Definition Cmul (z w : complex) : complex :=
  mkC (re z * re w - im z * im w) (re z * im w + im z * re w).
Definition Cabs (z : complex) : R := sqrt (re z * re z + im z * im z).

(** What a [describing_function] method can return: the int [0], a float,
    a complex number, or [np.nan]. *)
Inductive pyval : Type :=
| PyInt (z : Z)
| PyFloat (r : R)
| PyComplex (c : complex)
| PyNan.

(** [x + 1j * y] for floats [x] and [y]. *)
Definition real_plus_j (x y : R) : complex :=
  Cadd (RtoC x) (Cmul Cj (RtoC y)).

(** A scalar or a one-dimensional array: [np.shape] of the argument
    decides the shape of the result. *)
Inductive shaped (A : Type) : Type :=
| Scalar (a : A)
| Array (l : list A).

Arguments Scalar {A} a.
Arguments Array {A} l.

Definition atleast_1d {A : Type} (x : shaped A) : list A :=
  match x with
  | Scalar a => [a]
  | Array l => l
  end.

(** [np.array(l).reshape(np.shape(x))]: fails when the sizes differ. *)
Definition reshape_like {A B : Type} (x : shaped A) (l : list B) : outcome (shaped B) :=
  match x, l with
  | Scalar _, [b] => Ret (Scalar b)
  | Scalar _, _ => Raise (ValueError "cannot reshape array")
  | Array xs, _ =>
      if Nat.eqb (List.length xs) (List.length l) then Ret (Array l)
      else Raise (ValueError "cannot reshape array")
  end.

(* ------------------------------------------------------------------ *)
(** ** The [math] functions the module calls *)

Definition domain_error : exn := ValueError "math domain error".

(** [x / y]. *)
Definition pydiv (x y : R) : outcome R :=
  if Reqb y 0 then NonFinite else Ret (x / y).

(** [math.sqrt]. *)
Definition math_sqrt (x : R) : outcome R :=
  if Rltb x 0 then Raise domain_error else Ret (sqrt x).

(** [math.asin]. *)
Definition math_asin (x : R) : outcome R :=
  if Rltb 1 (Rabs x) then Raise domain_error else Ret (asin x).

(** [math.copysign(1, x)]; a real zero carries no sign bit and counts as
    positive. *)
Definition copysign1 (x : R) : R := if Rltb x 0 then -1 else 1.

(* ------------------------------------------------------------------ *)
(** ** class NonlinearFunction *)

(** [NonlinearFunction._f]. *)
Definition _f (x : R) : outcome R :=
  if Rltb 1 (Rabs x) then Ret (copysign1 x)
  else
    a <- math_asin x ;;
    s <- math_sqrt (1 - x ^ 2) ;;
    Ret ((a + x * s) * 2 / PI).

(* ------------------------------------------------------------------ *)
(** ** class saturation_nonlinearity *)

Record saturation_nonlinearity : Type :=
  mkSaturation { sat_lb : R; sat_ub : R }.

Definition asymmetric_warning : warning :=
  "asymmetric saturation; ignoring non-zero bias term"%string.

(** [saturation_nonlinearity.__init__(ub, lb)]; [lb = None] is the
    default.  Returns the object and the warnings emitted. *)
Definition saturation_init (ub : R) (lb : option R)
  : saturation_nonlinearity * list warning :=
  let '(lb, ub) :=
    match lb with
    | None => (- Rabs ub, Rabs ub)
    | Some lb => (lb, ub)
    end in
  let w :=
    if Rltb 0 lb || Rltb ub 0 || negb (Reqb (lb + ub) 0)
    then [asymmetric_warning] else [] in
  (mkSaturation lb ub, w).

(** [saturation_nonlinearity.__call__]. *)
Definition saturation_call (s : saturation_nonlinearity) (x : R) : R :=
  Rmax (sat_lb s) (Rmin x (sat_ub s)).

(** [saturation_nonlinearity.describing_function]. *)
Definition saturation_describing_function
  (s : saturation_nonlinearity) (A : R) : outcome pyval :=
  if Rleb (sat_lb s) A && Rleb A (sat_ub s) then Ret (PyFloat 1)
  else
    qa <- pydiv (sat_ub s) A ;;
    alpha <- math_asin qa ;;
    qb <- pydiv (- sat_lb s) A ;;
    beta <- math_asin qb ;;
    Ret (PyFloat ((sin (alpha + beta) * cos (alpha - beta) + (alpha + beta)) / PI)).

(* ------------------------------------------------------------------ *)
(** ** class relay_hysteresis_nonlinearity *)

Record relay_hysteresis_nonlinearity : Type :=
  mkRelay { branch : Z; relay_b : R; relay_c : R }.

(** [__init__(b, c)]: the state starts on the lower branch. *)
Definition relay_init (b c : R) : relay_hysteresis_nonlinearity :=
  mkRelay (-1) b c.

Definition set_branch (r : relay_hysteresis_nonlinearity) (z : Z)
  : relay_hysteresis_nonlinearity :=
  mkRelay z (relay_b r) (relay_c r).

(** [relay_hysteresis_nonlinearity.__call__]: when no arm of the
    [if]/[elif] chain is taken, [y] is unbound at [return y]. *)
Definition relay_call (r : relay_hysteresis_nonlinearity) (x : R)
  : outcome (relay_hysteresis_nonlinearity * R) :=
  if Rltb (relay_c r) x then Ret (set_branch r 1, relay_b r)
  else if Rltb x (- relay_c r) then Ret (set_branch r (-1), - relay_b r)
  else if (branch r =? -1)%Z then Ret (r, - relay_b r)
  else if (branch r =? 1)%Z then Ret (r, relay_b r)
  else Raise UnboundLocalError.

(** [relay_hysteresis_nonlinearity.describing_function]. *)
Definition relay_describing_function
  (r : relay_hysteresis_nonlinearity) (a : R) : outcome pyval :=
  if Rltb a (relay_c r) then Ret PyNan
  else
    q <- pydiv (relay_c r) a ;;
    s <- math_sqrt (1 - q ^ 2) ;;
    df_real <- pydiv (4 * relay_b r * s) (a * PI) ;;
    df_imag <- pydiv (-4 * relay_b r * relay_c r) (PI * a ^ 2) ;;
    Ret (PyComplex (real_plus_j df_real df_imag)).

(* ------------------------------------------------------------------ *)
(** ** class backlash_nonlinearity *)

Record backlash_nonlinearity : Type :=
  mkBacklash { backlash_b : R; center : R }.

(** [__init__(b)]: the center starts at 0. *)
Definition backlash_init (b : R) : backlash_nonlinearity := mkBacklash b 0.

(** One pass of the loop body of [__call__]: the new object and the value
    appended to [y]. *)
Definition backlash_step (bl : backlash_nonlinearity) (x : R)
  : backlash_nonlinearity * R :=
  let b := backlash_b bl in
  let c :=
    if Rltb (b / 2) (x - center bl) then x - b / 2
    else if Rltb (x - center bl) (- b / 2) then x + b / 2
    else center bl in
  (mkBacklash b c, c).

(** The [for] loop of [__call__] over the samples, in order. *)
Fixpoint backlash_loop (bl : backlash_nonlinearity) (xs : list R)
  : backlash_nonlinearity * list R :=
  match xs with
  | [] => (bl, [])
  | x :: xs' =>
      let '(bl1, y) := backlash_step bl x in
      let '(bl2, ys) := backlash_loop bl1 xs' in
      (bl2, y :: ys)
  end.

(** [backlash_nonlinearity.__call__] on a scalar or a 1-D array. *)
Definition backlash_call (bl : backlash_nonlinearity) (x : shaped R)
  : outcome (backlash_nonlinearity * shaped R) :=
  let '(bl', y) := backlash_loop bl (atleast_1d x) in
  v <- reshape_like x y ;;
  Ret (bl', v).

(** [backlash_nonlinearity.describing_function]. *)
Definition backlash_describing_function
  (bl : backlash_nonlinearity) (A : R) : outcome pyval :=
  let b := backlash_b bl in
  if Rleb A (b / 2) then Ret (PyInt 0)
  else
    q <- pydiv b A ;;
    fz <- _f (1 - q) ;;
    let df_real := (1 + fz) / 2 in
    q1 <- pydiv (2 * b) A ;;
    q2 <- pydiv b A ;;
    let df_imag := - (q1 - q2 ^ 2) / PI in
    Ret (PyComplex (real_plus_j df_real df_imag)).

(* ------------------------------------------------------------------ *)
(** ** The [fcn] argument of [describing_function] *)

(** The nonlinearities the estimator is given: a plain Python function of
    one number, or an instance of one of the three classes. *)
Inductive fcn : Type :=
| Callable (f : R -> R)
| Saturation (s : saturation_nonlinearity)
| RelayHysteresis (r : relay_hysteresis_nonlinearity)
| Backlash (bl : backlash_nonlinearity).

(** [np.squeeze] of the value of a call, used as one number. *)
Definition squeeze (v : shaped R) : outcome R :=
  match v with
  | Scalar y => Ret y
  | Array [y] => Ret y
  | Array _ => Raise (ValueError "not a scalar")
  end.

(** [fcn(x)] on one number: the updated object and the value. *)
Definition fcn_call (F : fcn) (x : R) : outcome (fcn * R) :=
  match F with
  | Callable f => Ret (F, f x)
  | Saturation s => Ret (F, saturation_call s x)
  | RelayHysteresis r =>
      '(r', y) <- relay_call r x ;; Ret (RelayHysteresis r', y)
  | Backlash bl =>
      '(bl', v) <- backlash_call bl (Scalar x) ;;
      y <- squeeze v ;;
      Ret (Backlash bl', y)
  end.

(** [[fcn(x) for x in xs]]. *)
Fixpoint fcn_calls (F : fcn) (xs : list R) : outcome (fcn * list R) :=
  match xs with
  | [] => Ret (F, [])
  | x :: xs' =>
      '(F1, y) <- fcn_call F x ;;
      '(F2, ys) <- fcn_calls F1 xs' ;;
      Ret (F2, y :: ys)
  end.

(** [hasattr(fcn, 'describing_function')], with the method when there is
    one. *)
Definition fcn_method (F : fcn) : option (R -> outcome pyval) :=
  match F with
  | Callable _ => None
  | Saturation s => Some (saturation_describing_function s)
  | RelayHysteresis r => Some (relay_describing_function r)
  | Backlash bl => Some (backlash_describing_function bl)
  end.

(* ------------------------------------------------------------------ *)
(** ** describing_function *)

(** [np.linspace(start, stop, num)], end point included. *)
Definition linspace (start stop : R) (num : Z) : outcome (list R) :=
  if (num <? 0)%Z then Raise (ValueError "Number of samples must be non-negative")
  else if (num =? 1)%Z then Ret [start]
  else
    let step := (stop - start) / (IZR num - 1) in
    Ret (map (fun k => start + INR k * step) (seq 0 (Z.to_nat num))).

(** [l[i]]. *)
Definition getitem {A : Type} (l : list A) (i : nat) : outcome A :=
  match nth_error l i with
  | Some a => Ret a
  | None => Raise IndexError
  end.

(** [l.min()]. *)
Definition array_min (l : list R) : outcome R :=
  match l with
  | [] => Raise (ValueError "zero-size array to reduction operation minimum")
  | a :: l' => Ret (fold_left Rmin l' a)
  end.

(** [u @ v] for two arrays of one length. *)
Fixpoint dot (u v : list R) : R :=
  match u, v with
  | x :: u', y :: v' => x * y + dot u' v'
  | _, _ => 0
  end.

Definition zero_error : exn := ValueError "function must evaluate to zero at zero".
Definition negative_error : exn :=
  ValueError "cannot evaluate describing function for amp < 0".

(** The loop over the amplitudes of the numerical branch. *)
Fixpoint df_loop (zero_check : bool) (sin_theta cos_theta : list R) (dtheta : R)
  (F : fcn) (amps : list R) : outcome (fcn * list pyval) :=
  match amps with
  | [] => Ret (F, [])
  | a :: rest =>
      if Reqb a 0 then
        '(F1, nonzero) <-
          (if zero_check
           then '(F1, y) <- fcn_call F 0 ;; Ret (F1, negb (Reqb y 0))
           else Ret (F, false)) ;;
        if (nonzero : bool) then Raise zero_error
        else
          '(F2, df) <- df_loop zero_check sin_theta cos_theta dtheta F1 rest ;;
          Ret (F2, PyFloat 1 :: df)
      else if Rltb a 0 then Raise negative_error
      else
        let scale := dtheta / PI / a in
        '(F1, fcn_eval) <- fcn_calls F (map (Rmult a) sin_theta) ;;
        let df_real := dot fcn_eval sin_theta * scale in
        let df_imag := dot fcn_eval cos_theta * scale in
        '(F2, df) <- df_loop zero_check sin_theta cos_theta dtheta F1 rest ;;
        Ret (F2, PyComplex (real_plus_j df_real df_imag) :: df)
  end.

(** [describing_function(fcn, amp, num_points, zero_check, try_method)]:
    the object after the calls made on it, and the values in the shape
    of [amp]. *)
Definition describing_function (F : fcn) (amp : shaped R)
  (num_points : Z) (zero_check try_method : bool) : outcome (fcn * shaped pyval) :=
  match (if try_method then fcn_method F else None) with
  | Some method =>
      df <- mapM method (atleast_1d amp) ;;
      v <- reshape_like amp df ;;
      Ret (F, v)
  | None =>
      theta <- linspace 0 (2 * PI) num_points ;;
      t1 <- getitem theta 1 ;;
      t0 <- getitem theta 0 ;;
      let dtheta := t1 - t0 in
      let sin_theta := map sin theta in
      let cos_theta := map cos theta in
      amin <- array_min (atleast_1d amp) ;;
      '(F0, _) <- fcn_calls F (map (Rmult amin) sin_theta) ;;
      '(F1, df) <- df_loop zero_check sin_theta cos_theta dtheta F0 (atleast_1d amp) ;;
      v <- reshape_like amp df ;;
      Ret (F1, v)
  end.

(** The defaults [num_points=100, zero_check=True, try_method=True]. *)
Definition describing_function_default (F : fcn) (amp : shaped R)
  : outcome (fcn * shaped pyval) :=
  describing_function F amp 100 true true.

(* ------------------------------------------------------------------ *)
(** ** _find_intersection *)

(** The magic number of [_find_intersection]. *)
Definition detM_tolerance : R := 1e-8.

(** [np.testing.assert_almost_equal(actual, desired)] on complex numbers,
    with its default of 7 decimals: real and imaginary parts are each
    required to differ by less than [1.5 * 10**(-7)]. *)
Definition almost_equal (actual desired : R) : bool :=
  Rltb (Rabs (desired - actual)) 1.5e-7.

Definition assert_almost_equal (actual desired : complex) : outcome unit :=
  if almost_equal (re actual) (re desired) && almost_equal (im actual) (im desired)
  then Ret tt else Raise AssertionError.

(** [_find_intersection(L1a, L1b, L2a, L2b)]: [None], or the pair
    [(s1, s2)]. *)
Definition _find_intersection (L1a L1b L2a L2b : complex)
  : outcome (option (R * R)) :=
  let L1t := Csub L1b L1a in
  let L2t := Csub L2b L2a in
  let b := Csub L1a L2a in
  let detM := im L1t * re L2t - re L1t * im L2t in
  if Rltb (Rabs detM) detM_tolerance then Ret None
  else
    let s1 := (im L2t * re b - re L2t * im b) / detM in
    if Rltb s1 0 || Rltb 1 s1 then Ret None
    else
      let s2 := (im L1t * re b - re L1t * im b) / detM in
      if Rltb s2 0 || Rltb 1 s2 then Ret None
      else
        _ <- assert_almost_equal
               (Cadd L1a (Cmul (RtoC s1) L1t)) (Cadd L2a (Cmul (RtoC s2) L2t)) ;;
        Ret (Some (s1, s2)).

(* ------------------------------------------------------------------ *)
(** ** describing_function_plot *)

(** [z / w] on complex numbers. *)
Definition Cdiv (z w : complex) : outcome complex :=
  let d := re w * re w + im w * im w in
  if Reqb d 0 then NonFinite
  else Ret (mkC ((re z * re w + im z * im w) / d) ((im z * re w - re z * im w) / d)).

(** One element of [-1/df]; nan has no real value. *)
Definition neg_recip (v : pyval) : outcome complex :=
  match v with
  | PyInt z => q <- pydiv (-1) (IZR z) ;; Ret (RtoC q)
  | PyFloat r => q <- pydiv (-1) r ;; Ret (RtoC q)
  | PyComplex c => Cdiv (RtoC (-1)) c
  | PyNan => NonFinite
  end.

(** [z * v] for a complex [z] and a value of [describing_function]. *)
Definition Cmul_pyval (z : complex) (v : pyval) : outcome complex :=
  match v with
  | PyInt n => Ret (Cmul z (RtoC (IZR n)))
  | PyFloat r => Ret (Cmul z (RtoC r))
  | PyComplex c => Ret (Cmul z c)
  | PyNan => NonFinite
  end.

(** The result object of [scipy.optimize.minimize]: [res.success] and
    [res.x]. *)
Record OptimizeResult : Type :=
  mkResult { success : bool; res_x : R * R }.

(** What the function draws: the curve of [-1/N(a)] and the labels. *)
Inductive plot_cmd : Type :=
| PlotCurve (pts : list complex)
| PlotText (pos : complex) (label : string) (a omega : R).

(** The list [intersections], the warnings emitted and the drawing made
    so far. *)
Record plot_state : Type :=
  mkState { intersections : list (R * R);
            warnings : list warning;
            drawn : list plot_cmd }.

Definition refine_warning : warning :=
  "not able to refine result; returning estimate"%string.

(** A [for] loop that carries a state and stops at the first exception. *)
Fixpoint foldM {A S : Type} (f : S -> A -> outcome S) (l : list A) (s : S)
  : outcome S :=
  match l with
  | [] => Ret s
  | a :: l' => s' <- f s a ;; foldM f l' s'
  end.

Section LimitCycles.

(** The collaborators: [H(s)], the linear system at a complex frequency;
    [nyquist_plot(H, omega, plot=True)], whose three parallel arrays
    [H_real], [H_imag], [H_omega] are given as one list of triples;
    [scipy.optimize.minimize(cost, x0)], taken to return its result
    object whatever the cost function does. *)
Variable H : complex -> complex.
Variable nyquist_plot : option (list R) -> list (R * R * R).
Variable minimize : (R * R -> outcome R) -> R * R -> OptimizeResult.

(** The local function [_cost] of the refinement. *)
Definition _cost (F : fcn) (x : R * R) : outcome R :=
  let h := H (Cmul Cj (RtoC (snd x))) in
  '(_, v) <- describing_function_default F (Scalar (fst x)) ;;
  n <- (match v with Scalar n => Ret n | Array _ => Raise (ValueError "not a scalar") end) ;;
  p <- Cmul_pyval h n ;;
  Ret (Cabs (Cadd (RtoC 1) p) ^ 2).

(** The body of the two nested loops for the segments [i] and [j]. *)
Definition locate_pair (F : fcn) (a : list R)
  (N_vals H_vals : list complex) (H_omega : list R)
  (refine : bool) (label : string)
  (st : plot_state) (i j : nat) : outcome plot_state :=
  n0 <- getitem N_vals i ;;
  n1 <- getitem N_vals (i + 1) ;;
  h0 <- getitem H_vals j ;;
  h1 <- getitem H_vals (j + 1) ;;
  intersect <- _find_intersection n0 n1 h0 h1 ;;
  match intersect with
  | None => Ret st
  | Some (s_amp, s_omega) =>
      a0 <- getitem a i ;;
      a1 <- getitem a (i + 1) ;;
      let a_guess := (1 - s_amp) * a0 + s_amp * a1 in
      w0 <- getitem H_omega j ;;
      w1 <- getitem H_omega (j + 1) ;;
      let omega_guess := (1 - s_omega) * w0 + s_omega * w1 in
      let '(a_final, omega_final, ws) :=
        if refine then
          let res := minimize (_cost F) (a_guess, omega_guess) in
          if negb (success res) then (a_guess, omega_guess, [refine_warning])
          else (fst (res_x res), snd (res_x res), [])
        else (a_guess, omega_guess, []) in
      let texts :=
        if String.eqb label EmptyString then []
        else
          let pos := H (Cmul Cj (RtoC omega_final)) in
          [PlotText pos label a_final omega_final] in
      Ret (mkState (intersections st ++ [(a_final, omega_final)])
                   (warnings st ++ ws)
                   (drawn st ++ texts))
  end.

(** [describing_function_plot(H, F, a, omega, refine, label)]. *)
Definition describing_function_plot (F : fcn) (a : list R)
  (omega : option (list R)) (refine : bool) (label : string)
  : outcome plot_state :=
  let nyq := nyquist_plot omega in
  let H_vals := map (fun t => real_plus_j (fst (fst t)) (snd (fst t))) nyq in
  let H_omega := map snd nyq in
  '(F1, dfv) <- describing_function_default F (Array a) ;;
  N_vals <- mapM neg_recip (atleast_1d dfv) ;;
  let st0 := mkState [] [] [PlotCurve N_vals] in
  foldM (fun st i =>
           foldM (fun st j =>
                    locate_pair F1 a N_vals H_vals H_omega refine label st i j)
                 (seq 0 (List.length H_vals - 1)) st)
        (seq 0 (List.length N_vals - 1)) st0.

End LimitCycles.

(* ------------------------------------------------------------------ *)
(** ** Sequences of calls, and the formulas of the specification *)

(** A sequence of calls [r(x)] on one relay: the object after each call
    with the value the call returned. *)
Fixpoint relay_trace (r : relay_hysteresis_nonlinearity) (xs : list R)
  : outcome (list (relay_hysteresis_nonlinearity * R)) :=
  match xs with
  | [] => Ret []
  | x :: xs' =>
      '(r1, y) <- relay_call r x ;;
      t <- relay_trace r1 xs' ;;
      Ret ((r1, y) :: t)
  end.

(** The branch state of a relay is one of the two branches. *)
Definition branch_ok (r : relay_hysteresis_nonlinearity) : Prop :=
  (branch r = 1 \/ branch r = -1)%Z.

(** A sequence of calls on one backlash object, each with a scalar or an
    array. *)
Fixpoint backlash_trace (bl : backlash_nonlinearity) (xs : list (shaped R))
  : outcome (list (backlash_nonlinearity * shaped R)) :=
  match xs with
  | [] => Ret []
  | x :: xs' =>
      '(bl1, y) <- backlash_call bl x ;;
      t <- backlash_trace bl1 xs' ;;
      Ret ((bl1, y) :: t)
  end.

(** The sign function of the specification. *)
Definition sign (z : R) : R :=
  if Rltb z 0 then -1 else if Rltb 0 z then 1 else 0.

(** The auxiliary sector function [f] in the words of the
    specification: [sign(z)] for [|z| > 1] and
    [(asin(z) + z sqrt(1 - z^2)) 2/pi] otherwise. *)
Definition f_spec (z : R) : R :=
  if Rltb 1 (Rabs z) then sign z
  else (asin z + z * sqrt (1 - z ^ 2)) * 2 / PI.

(** The pair an accepted intersection ends as, from its coarse guess [g]
    and the result [res] of the minimizer. *)
Definition refined (res : OptimizeResult) (g : R * R) : R * R :=
  if success res then res_x res else g.

Section Refined.

Variable H : complex -> complex.
Variable minimize : (R * R -> outcome R) -> R * R -> OptimizeResult.
Variable F : fcn.

(** The final pair of the intersection with coarse guess [g]. *)
Definition final (g : R * R) : R * R := refined (minimize (_cost H F) g) g.

(** The warnings the refinement of [g] emits. *)
Definition warned (g : R * R) : list warning :=
  if success (minimize (_cost H F) g) then [] else [refine_warning].

(** The state of a run with refinement, against the state of the run
    without it at the same point of the loops. *)
Definition follows (coarse fine : plot_state) : Prop :=
  warnings coarse = [] /\
  intersections fine = map final (intersections coarse) /\
  warnings fine = flat_map warned (intersections coarse).

End Refined.

(** Collaborators of a worked example: a plant whose locus goes up the
    vertical line from [-1/2 - j] at frequency 1 to [-1/2] at frequency 2
    (its value elsewhere plays no role), and a minimizer that always
    reports failure. *)
Definition example_plant (s : complex) : complex := mkC (- (1 / 2)) (im s - 2).

Definition example_nyquist (omega : option (list R)) : list (R * R * R) :=
  [(- (1 / 2), -1, 1); (- (1 / 2), 0, 2)].

Definition failing_minimize (cost : R * R -> outcome R) (x0 : R * R)
  : OptimizeResult :=
  mkResult false x0.

(** The default [label] of [describing_function_plot]. *)
Definition default_label : string := "%5.2g @ %-5.2g"%string.

(** The shape of a result against the shape of the argument: a scalar for
    a scalar, an array of the same length for an array. *)
Definition same_shape {A B : Type} (x : shaped A) (v : shaped B) : Prop :=
  match x, v with
  | Scalar _, Scalar _ => True
  | Array xs, Array vs => List.length vs = List.length xs
  | _, _ => False
  end.

(** The objects the constructors and the calls can produce: a relay is on
    one of its two branches. *)
Definition fcn_ok (F : fcn) : Prop :=
  match F with
  | RelayHysteresis r => branch_ok r
  | _ => True
  end.

(** The numerical branch of [describing_function] is the one taken: the
    argument has no [describing_function] method, or [try_method] is
    off. *)
Definition numerical_branch (F : fcn) (try_method : bool) : Prop :=
  (if try_method then fcn_method F else None) = None.

(** The sample angles for [num_points = n]. *)
Definition theta_grid (n : Z) : list R :=
  map (fun k => 0 + INR k * ((2 * PI - 0) / (IZR n - 1))) (seq 0 (Z.to_nat n)).

(** [dtheta = theta[1] - theta[0]] for [num_points = n]. *)
Definition dtheta_grid (n : Z) : R :=
  (0 + INR 1 * ((2 * PI - 0) / (IZR n - 1))) - (0 + INR 0 * ((2 * PI - 0) / (IZR n - 1))).

(** The numerical branch for [num_points = n], after the grid is built. *)
Definition numerical_estimate (F : fcn) (amp : shaped R) (n : Z) (zero_check : bool)
  : outcome (fcn * shaped pyval) :=
  amin <- array_min (atleast_1d amp) ;;
  '(F0, _) <- fcn_calls F (map (Rmult amin) (map sin (theta_grid n))) ;;
  '(F1, df) <- df_loop zero_check (map sin (theta_grid n)) (map cos (theta_grid n))
                 (dtheta_grid n) F0 (atleast_1d amp) ;;
  v <- reshape_like amp df ;;
  Ret (F1, v).

(** The sum of a list of numbers. *)
Definition Rsum (l : list R) : R := fold_right Rplus 0 l.

(* ------------------------------------------------------------------ *)
(** * Properties *)

(** ** The boolean comparisons *)

Lemma Rltb_true (x y : R) : x < y -> Rltb x y = true.
Proof. intros Hlt. unfold Rltb. destruct (Rlt_dec x y); [reflexivity | contradiction]. Qed.

Lemma Rltb_false (x y : R) : y <= x -> Rltb x y = false.
Proof. intros Hle. unfold Rltb. destruct (Rlt_dec x y); [lra | reflexivity]. Qed.

Lemma Rleb_true (x y : R) : x <= y -> Rleb x y = true.
Proof. intros Hle. unfold Rleb. destruct (Rle_dec x y); [reflexivity | contradiction]. Qed.

Lemma Rleb_false (x y : R) : y < x -> Rleb x y = false.
Proof. intros Hlt. unfold Rleb. destruct (Rle_dec x y); [lra | reflexivity]. Qed.

Lemma Reqb_true (x y : R) : x = y -> Reqb x y = true.
Proof. intros Heq. unfold Reqb. destruct (Req_dec_T x y); [reflexivity | contradiction]. Qed.

Lemma Reqb_false (x y : R) : x <> y -> Reqb x y = false.
Proof. intros Hne. unfold Reqb. destruct (Req_dec_T x y); [contradiction | reflexivity]. Qed.

Lemma Rltb_spec (x y : R) : reflect (x < y) (Rltb x y).
Proof. unfold Rltb. destruct (Rlt_dec x y); constructor; assumption. Qed.

Lemma Rleb_spec (x y : R) : reflect (x <= y) (Rleb x y).
Proof. unfold Rleb. destruct (Rle_dec x y); constructor; assumption. Qed.

Lemma Reqb_spec (x y : R) : reflect (x = y) (Reqb x y).
Proof. unfold Reqb. destruct (Req_dec_T x y); constructor; assumption. Qed.

(** Decide a comparison whose two sides [lra] can order. *)
Ltac rcmp :=
  repeat first
    [ rewrite Rltb_true by lra | rewrite Rltb_false by lra
    | rewrite Rleb_true by lra | rewrite Rleb_false by lra
    | rewrite Reqb_true by lra | rewrite Reqb_false by lra ].

Lemma real_plus_j_eq (x y : R) : real_plus_j x y = mkC x y.
Proof. unfold real_plus_j, Cadd, Cmul, RtoC, Cj; simpl. f_equal; ring. Qed.

Lemma pydiv_ok (x y : R) : y <> 0 -> pydiv x y = Ret (x / y).
Proof. intros Hy. unfold pydiv. now rewrite Reqb_false. Qed.

Lemma math_sqrt_ok (x : R) : 0 <= x -> math_sqrt x = Ret (sqrt x).
Proof. intros Hx. unfold math_sqrt. now rewrite Rltb_false. Qed.

Lemma math_asin_ok (x : R) : -1 <= x <= 1 -> math_asin x = Ret (asin x).
Proof.
  intros Hx. unfold math_asin. rewrite Rltb_false; [reflexivity |].
  apply Rabs_le. lra.
Qed.

(* ------------------------------------------------------------------ *)
(** ** saturation_nonlinearity *)

(** The warning test of the constructor, as a proposition. *)
Lemma asymmetric_test (lb ub : R) :
  0 < lb \/ ub < 0 \/ lb + ub <> 0 ->
  Rltb 0 lb || Rltb ub 0 || negb (Reqb (lb + ub) 0) = true.
Proof.
  intros Hasym.
  destruct (Rltb_spec 0 lb); [reflexivity |].
  destruct (Rltb_spec ub 0); [reflexivity |].
  destruct (Reqb_spec (lb + ub) 0); [| reflexivity].
  exfalso. destruct Hasym as [H1 | [H2 | H3]]; auto.
Qed.

(** C3, as the code has it: with asymmetric bounds the constructor returns
    an object (it cannot fail), emits exactly the asymmetry warning, and
    stores both bounds exactly as they were given; evaluation clamps to
    the stored bounds. *)
Theorem saturation_init_asymmetric (ub lb : R) :
  0 < lb \/ ub < 0 \/ lb + ub <> 0 ->
  saturation_init ub (Some lb) = (mkSaturation lb ub, [asymmetric_warning]) /\
  forall x, saturation_call (fst (saturation_init ub (Some lb))) x
            = Rmax lb (Rmin x ub).
Proof.
  intros Hasym. unfold saturation_init.
  rewrite (asymmetric_test lb ub Hasym). split; [reflexivity |].
  intros x. reflexivity.
Qed.

Lemma saturation_init_asymmetric_witness :
  saturation_init 2 (Some (-1)) = (mkSaturation (-1) 2, [asymmetric_warning]) /\
  forall x, saturation_call (fst (saturation_init 2 (Some (-1)))) x
            = Rmax (-1) (Rmin x 2).
Proof. apply (saturation_init_asymmetric 2 (-1)). right; right; lra. Defined.

(** C3 as stated fails: [saturation_nonlinearity(ub=2, lb=-1)] warns and
    keeps the bounds -1 and 2, which are not symmetric about zero; an
    input of 3 is clamped to 2 and an input of -3 to -1. *)
Lemma saturation_bounds_not_symmetrized :
  let s := fst (saturation_init 2 (Some (-1))) in
  snd (saturation_init 2 (Some (-1))) = [asymmetric_warning] /\
  sat_lb s + sat_ub s <> 0 /\
  saturation_call s 3 = 2 /\ saturation_call s (-3) = -1.
Proof.
  assert (Hasym : 0 < -1 \/ 2 < 0 \/ -1 + 2 <> 0) by (right; right; lra).
  cbv zeta. unfold saturation_init.
  rewrite (asymmetric_test (-1) 2 Hasym).
  simpl. unfold saturation_call; simpl.
  repeat split.
  - lra.
  - rewrite Rmin_right by lra. rewrite Rmax_right by lra. reflexivity.
  - rewrite Rmin_left by lra. rewrite Rmax_left by lra. reflexivity.
Qed.

Lemma saturation_init_symmetric (ub : R) :
  0 < ub -> saturation_init ub None = (mkSaturation (- ub) ub, []).
Proof.
  intros Hub. unfold saturation_init.
  rewrite (Rabs_pos_eq ub) by lra. rcmp. reflexivity.
Qed.

(** C6: for the symmetric saturation with bound [ub > 0], the describing
    function is the float 1 on the linear region [0 <= A <= ub]; for
    [A > ub] no exception is raised and the value is a float (a real
    number, with no imaginary part), namely
    [(sin(2 alpha) cos(0) + 2 alpha) / pi] with [alpha = asin(ub/A)]. *)
Theorem saturation_describing_function_real (ub A : R) :
  0 < ub ->
  let s := fst (saturation_init ub None) in
  (0 <= A <= ub -> saturation_describing_function s A = Ret (PyFloat 1)) /\
  (ub < A ->
   let alpha := asin (ub / A) in
   saturation_describing_function s A
   = Ret (PyFloat ((sin (alpha + alpha) * cos (alpha - alpha) + (alpha + alpha)) / PI))).
Proof.
  intros Hub. rewrite saturation_init_symmetric by assumption. simpl.
  unfold saturation_describing_function; simpl. split.
  - intros [H0 HA]. rcmp. reflexivity.
  - intros HA. rewrite (Rleb_false A ub) by lra. rewrite andb_false_r.
    assert (Hq : 0 < ub / A < 1).
    { split.
      - apply Rdiv_lt_0_compat; lra.
      - apply Rmult_lt_reg_r with A; [lra |]. field_simplify; lra. }
    rewrite Ropp_involutive.
    rewrite pydiv_ok by lra. simpl.
    rewrite math_asin_ok by lra. reflexivity.
Qed.

Lemma saturation_describing_function_real_witness :
  let s := fst (saturation_init 1 None) in
  saturation_describing_function s (1 / 2) = Ret (PyFloat 1) /\
  saturation_describing_function s 2
  = Ret (PyFloat ((sin (asin (1 / 2) + asin (1 / 2))
                   * cos (asin (1 / 2) - asin (1 / 2))
                   + (asin (1 / 2) + asin (1 / 2))) / PI)).
Proof.
  split.
  - apply (saturation_describing_function_real 1 (1 / 2)); lra.
  - apply (saturation_describing_function_real 1 2); lra.
Defined.

(* ------------------------------------------------------------------ *)
(** ** relay_hysteresis_nonlinearity *)

(** The closed form of the relay, below and from the switching level. *)
Lemma relay_describing_function_cases (z : Z) (b c a : R) :
  0 < b -> 0 < c ->
  (a < c -> relay_describing_function (mkRelay z b c) a = Ret PyNan) /\
  (c <= a ->
   relay_describing_function (mkRelay z b c) a
   = Ret (PyComplex (mkC (4 * b * sqrt (1 - (c / a) ^ 2) / (a * PI))
                         (- (4 * b * c) / (PI * a ^ 2)))) /\
   - (4 * b * c) / (PI * a ^ 2) < 0).
Proof.
  intros Hb Hc. unfold relay_describing_function; cbn [relay_b relay_c]. split.
  - intros Hlt. rcmp. reflexivity.
  - intros Hle. rewrite Rltb_false by lra.
    assert (Ha : 0 < a) by lra.
    assert (Hpi := PI_RGT_0).
    assert (Hq : 0 < c / a <= 1).
    { split.
      - apply Rdiv_lt_0_compat; lra.
      - apply Rmult_le_reg_r with a; [lra |]. field_simplify; lra. }
    assert (Hden : 0 < PI * a ^ 2) by (apply Rmult_lt_0_compat; [lra | nra]).
    split.
    + rewrite pydiv_ok by lra. cbn [bind].
      rewrite math_sqrt_ok by nra. cbn [bind].
      rewrite pydiv_ok by nra. cbn [bind].
      rewrite pydiv_ok by lra. cbn [bind].
      rewrite real_plus_j_eq. do 3 f_equal. field. split; lra.
    + assert (Hnum : 0 < 4 * b * c)
        by (apply Rmult_lt_0_compat; [lra | assumption]).
      assert (Hpos : 0 < 4 * b * c / (PI * a ^ 2))
        by (apply Rdiv_lt_0_compat; assumption).
      replace (- (4 * b * c) / (PI * a ^ 2)) with (- (4 * b * c / (PI * a ^ 2)))
        by (field; split; lra).
      lra.
Qed.

(** C4: for a relay with [b > 0] and [c > 0] (in any branch state), the
    closed form returns nan for every amplitude [a < c]; for [a >= c] it
    returns the complex number with real part
    [4 b sqrt(1 - (c/a)^2) / (a pi)] and imaginary part
    [-4 b c / (pi a^2)], and that imaginary part is strictly negative. *)
Theorem relay_describing_function_closed_form (z : Z) (b c a : R) :
  0 < b -> 0 < c ->
  (a < c -> relay_describing_function (mkRelay z b c) a = Ret PyNan) /\
  (c <= a ->
   relay_describing_function (mkRelay z b c) a
   = Ret (PyComplex (mkC (4 * b * sqrt (1 - (c / a) ^ 2) / (a * PI))
                         (- (4 * b * c) / (PI * a ^ 2)))) /\
   - (4 * b * c) / (PI * a ^ 2) < 0).
Proof. exact (relay_describing_function_cases z b c a). Qed.

Lemma relay_describing_function_closed_form_witness :
  relay_describing_function (relay_init 1 (1 / 2)) (3 / 10) = Ret PyNan /\
  relay_describing_function (relay_init 1 (1 / 2)) 1
  = Ret (PyComplex (mkC (4 * 1 * sqrt (1 - (1 / 2 / 1) ^ 2) / (1 * PI))
                        (- (4 * 1 * (1 / 2)) / (PI * 1 ^ 2)))) /\
  - (4 * 1 * (1 / 2)) / (PI * 1 ^ 2) < 0.
Proof.
  split.
  - apply (relay_describing_function_closed_form (-1) 1 (1 / 2) (3 / 10)); lra.
  - apply (relay_describing_function_closed_form (-1) 1 (1 / 2) 1); lra.
Defined.

(** One call on a relay in a valid branch state returns, keeps the
    parameters and the validity of the state, and gives [b] times the new
    branch. *)
Lemma relay_call_step (r : relay_hysteresis_nonlinearity) (x : R) :
  branch_ok r ->
  exists r' y,
    relay_call r x = Ret (r', y) /\
    branch_ok r' /\ relay_b r' = relay_b r /\ relay_c r' = relay_c r /\
    y = relay_b r' * IZR (branch r').
Proof.
  intros Hr. unfold relay_call.
  destruct (Rltb (relay_c r) x).
  { exists (set_branch r 1), (relay_b r). unfold branch_ok; simpl.
    repeat split; auto; lra. }
  destruct (Rltb x (- relay_c r)).
  { exists (set_branch r (-1)), (- relay_b r). unfold branch_ok; simpl.
    repeat split; auto; lra. }
  destruct Hr as [Hr | Hr].
  - exists r, (relay_b r). rewrite Hr; simpl.
    unfold branch_ok. rewrite Hr. repeat split; auto; lra.
  - exists r, (- relay_b r). rewrite Hr; simpl.
    unfold branch_ok. rewrite Hr. repeat split; auto; lra.
Qed.

Lemma relay_trace_invariant (xs : list R) :
  forall r, branch_ok r ->
  exists t,
    relay_trace r xs = Ret t /\
    List.length t = List.length xs /\
    Forall (fun ry : relay_hysteresis_nonlinearity * R =>
              branch_ok (fst ry) /\
              snd ry = relay_b r * IZR (branch (fst ry)) /\
              (snd ry = relay_b r \/ snd ry = - relay_b r)) t.
Proof.
  induction xs as [| x xs IH]; intros r Hr.
  - exists []. simpl. repeat split; constructor.
  - destruct (relay_call_step r x Hr) as (r' & y & Hcall & Hr' & Hb & Hc & Hy).
    destruct (IH r' Hr') as (t & Ht & Hlen & Hall).
    exists ((r', y) :: t). simpl. rewrite Hcall; simpl. rewrite Ht; simpl.
    split; [reflexivity |]. split; [now rewrite Hlen |].
    constructor.
    + simpl. rewrite <- Hb. split; [assumption |]. split; [assumption |].
      rewrite Hy. destruct Hr' as [Hz | Hz]; rewrite Hz; [left | right]; lra.
    + rewrite Hb in Hall. exact Hall.
Qed.

(** C9: for every relay [relay_hysteresis_nonlinearity(b, c)] and every
    sequence of calls, no call raises; after each call the branch state is
    1 or -1, and the value returned by the call is [b] times that updated
    branch state, hence [b] or [-b]. *)
Theorem relay_branch_invariant (b c : R) (xs : list R) :
  exists t,
    relay_trace (relay_init b c) xs = Ret t /\
    List.length t = List.length xs /\
    Forall (fun ry : relay_hysteresis_nonlinearity * R =>
              (branch (fst ry) = 1 \/ branch (fst ry) = -1)%Z /\
              snd ry = b * IZR (branch (fst ry)) /\
              (snd ry = b \/ snd ry = - b)) t.
Proof.
  apply (relay_trace_invariant xs (relay_init b c)).
  right. reflexivity.
Qed.

(* ------------------------------------------------------------------ *)
(** ** backlash_nonlinearity *)

Lemma Rabs_le_bounds (x b : R) : Rabs x <= b -> - b <= x <= b.
Proof. unfold Rabs. destruct (Rcase_abs x); lra. Qed.

(** [_f] never raises and computes the sector function of the
    specification. *)
Lemma _f_refines_f_spec (x : R) : _f x = Ret (f_spec x).
Proof.
  unfold _f, f_spec.
  destruct (Rltb_spec 1 (Rabs x)) as [Hbig | Hsmall].
  - f_equal. unfold copysign1, sign.
    destruct (Rltb_spec x 0) as [Hneg | Hnn]; [reflexivity |].
    rewrite Rltb_true; [reflexivity |].
    destruct (Req_dec x 0) as [H0 | H0]; [| lra].
    subst x. rewrite Rabs_R0 in Hbig. lra.
  - assert (Hx : -1 <= x <= 1) by (apply Rabs_le_bounds; lra).
    rewrite math_asin_ok by assumption. cbn [bind].
    rewrite math_sqrt_ok by nra. reflexivity.
Qed.

(** C5: for a backlash with [b > 0] (whatever its center), the closed
    form returns the int 0 for every amplitude [A <= b/2]; for [A > b/2]
    it returns the complex number with real part [(1 + f(1 - b/A)) / 2]
    and imaginary part [-(2 b/A - (b/A)^2) / pi], with [f] the sector
    function of the specification. *)
Theorem backlash_describing_function_closed_form (b c A : R) :
  0 < b ->
  (A <= b / 2 -> backlash_describing_function (mkBacklash b c) A = Ret (PyInt 0)) /\
  (b / 2 < A ->
   backlash_describing_function (mkBacklash b c) A
   = Ret (PyComplex (mkC ((1 + f_spec (1 - b / A)) / 2)
                         (- (2 * b / A - (b / A) ^ 2) / PI)))).
Proof.
  intros Hb. unfold backlash_describing_function; cbn [backlash_b]. split.
  - intros Hle. rcmp. reflexivity.
  - intros Hlt. rewrite Rleb_false by lra.
    rewrite !pydiv_ok by lra. cbn [bind].
    rewrite _f_refines_f_spec. cbn [bind].
    rewrite real_plus_j_eq. reflexivity.
Qed.

Lemma backlash_describing_function_closed_form_witness :
  backlash_describing_function (backlash_init 2) (1 / 2) = Ret (PyInt 0) /\
  backlash_describing_function (backlash_init 2) 4
  = Ret (PyComplex (mkC ((1 + f_spec (1 - 2 / 4)) / 2)
                        (- (2 * 2 / 4 - (2 / 4) ^ 2) / PI))).
Proof.
  split.
  - apply (backlash_describing_function_closed_form 2 0 (1 / 2)); lra.
  - apply (backlash_describing_function_closed_form 2 0 4); lra.
Defined.

(** One sample: the value appended is the new center, the parameter is
    kept, and with [b >= 0] the sample lies within [b/2] of the new
    center. *)
Lemma backlash_step_spec (bl : backlash_nonlinearity) (x : R) :
  snd (backlash_step bl x) = center (fst (backlash_step bl x)) /\
  backlash_b (fst (backlash_step bl x)) = backlash_b bl /\
  (0 <= backlash_b bl ->
   Rabs (x - center (fst (backlash_step bl x))) <= backlash_b bl / 2).
Proof.
  unfold backlash_step; cbn [fst snd center backlash_b].
  split; [reflexivity |]. split; [reflexivity |].
  intros Hb. apply Rabs_le.
  destruct (Rltb_spec (backlash_b bl / 2) (x - center bl)); [lra |].
  destruct (Rltb_spec (x - center bl) (- backlash_b bl / 2)); lra.
Qed.

Lemma backlash_loop_length (xs : list R) :
  forall bl, List.length (snd (backlash_loop bl xs)) = List.length xs.
Proof.
  induction xs as [| x xs IH]; intros bl; [reflexivity |].
  cbn [backlash_loop]. destruct (backlash_step bl x) as [bl1 y].
  specialize (IH bl1). destruct (backlash_loop bl1 xs) as [bl2 ys].
  cbn [snd List.length] in *. now rewrite IH.
Qed.

(** A call with a scalar is one step of the loop. *)
Lemma backlash_call_scalar (bl : backlash_nonlinearity) (x : R) :
  backlash_call bl (Scalar x)
  = Ret (fst (backlash_step bl x), Scalar (snd (backlash_step bl x))).
Proof.
  unfold backlash_call; cbn [atleast_1d backlash_loop].
  destruct (backlash_step bl x) as [bl1 y]. reflexivity.
Qed.

(** A call with an array returns an array of the same length, computed by
    the loop. *)
Lemma backlash_call_array (bl : backlash_nonlinearity) (xs : list R) :
  backlash_call bl (Array xs)
  = Ret (fst (backlash_loop bl xs), Array (snd (backlash_loop bl xs))).
Proof.
  unfold backlash_call; cbn [atleast_1d].
  pose proof (backlash_loop_length xs bl) as Hlen.
  destruct (backlash_loop bl xs) as [bl' ys]. cbn [fst snd reshape_like bind] in *.
  rewrite <- Hlen, Nat.eqb_refl. reflexivity.
Qed.

Lemma last_cons {A : Type} (l : list A) (a d : A) : last (a :: l) d = last l a.
Proof.
  revert a d. induction l as [| b l IH]; intros a d; [reflexivity |].
  change (last (a :: b :: l) d) with (last (b :: l) d).
  rewrite IH. symmetry. apply IH.
Qed.

(** The scalar calls made one after the other on the samples of [xs]. *)
Lemma backlash_trace_scalars (xs : list R) :
  forall bl, 0 <= backlash_b bl ->
  exists t,
    backlash_trace bl (map Scalar xs) = Ret t /\
    Forall2 (fun x (by_ : backlash_nonlinearity * shaped R) =>
               snd by_ = Scalar (center (fst by_)) /\
               Rabs (x - center (fst by_)) <= backlash_b bl / 2) xs t /\
    map snd t = map Scalar (snd (backlash_loop bl xs)) /\
    last (map fst t) bl = fst (backlash_loop bl xs).
Proof.
  induction xs as [| x xs IH]; intros bl Hb.
  - exists []. simpl. repeat split; constructor.
  - destruct (backlash_step_spec bl x) as (Hy & Hkeep & Hnear).
    specialize (Hnear Hb).
    destruct (backlash_step bl x) as [bl1 y] eqn:Hstep. simpl in Hy, Hkeep, Hnear.
    assert (Hb1 : 0 <= backlash_b bl1) by (rewrite Hkeep; assumption).
    destruct (IH bl1 Hb1) as (t & Ht & Hall & Hout & Hlast).
    exists ((bl1, Scalar y) :: t).
    cbn [map backlash_trace]. rewrite backlash_call_scalar, Hstep.
    cbn [bind fst snd]. rewrite Ht. cbn [bind].
    split; [reflexivity |]. split; [| split].
    + constructor.
      * cbn [fst snd]. split; [now rewrite Hy | assumption].
      * rewrite Hkeep in Hall. exact Hall.
    + cbn [map snd backlash_loop]. rewrite Hstep.
      destruct (backlash_loop bl1 xs) as [bl2 ys]. cbn [snd map] in *.
      now rewrite Hout.
    + cbn [backlash_loop]. rewrite Hstep.
      destruct (backlash_loop bl1 xs) as [bl2 ys]. cbn [fst] in *.
      cbn [map fst]. rewrite last_cons. exact Hlast.
Qed.

(** C10: for every backlash object with [b >= 0] (in any state) and every
    sequence of scalar calls, no call raises; after the call on [x] the
    center satisfies [|x - center| <= b/2] and the value returned is that
    center.  A call with an array of samples returns an array of the same
    length, and its values and the final state are those of the scalar
    calls made on the samples in order. *)
Theorem backlash_center_invariant (bl : backlash_nonlinearity) (xs : list R) :
  0 <= backlash_b bl ->
  exists t ys bl',
    backlash_trace bl (map Scalar xs) = Ret t /\
    Forall2 (fun x (by_ : backlash_nonlinearity * shaped R) =>
               snd by_ = Scalar (center (fst by_)) /\
               Rabs (x - center (fst by_)) <= backlash_b bl / 2) xs t /\
    backlash_call bl (Array xs) = Ret (bl', Array ys) /\
    List.length ys = List.length xs /\
    map snd t = map Scalar ys /\
    last (map fst t) bl = bl'.
Proof.
  intros Hb.
  destruct (backlash_trace_scalars xs bl Hb) as (t & Ht & Hall & Hout & Hlast).
  exists t, (snd (backlash_loop bl xs)), (fst (backlash_loop bl xs)).
  rewrite backlash_call_array, backlash_loop_length. auto 10.
Qed.

Lemma backlash_center_invariant_witness :
  exists t ys bl',
    backlash_trace (backlash_init 2) (map Scalar [3; 0; 1 / 2]) = Ret t /\
    Forall2 (fun x (by_ : backlash_nonlinearity * shaped R) =>
               snd by_ = Scalar (center (fst by_)) /\
               Rabs (x - center (fst by_)) <= backlash_b (backlash_init 2) / 2)
            [3; 0; 1 / 2] t /\
    backlash_call (backlash_init 2) (Array [3; 0; 1 / 2]) = Ret (bl', Array ys) /\
    List.length ys = List.length [3; 0; 1 / 2] /\
    map snd t = map Scalar ys /\
    last (map fst t) (backlash_init 2) = bl'.
Proof. apply (backlash_center_invariant (backlash_init 2) [3; 0; 1 / 2]). simpl. lra. Defined.

(* ------------------------------------------------------------------ *)
(** ** _find_intersection *)

Lemma detM_tolerance_pos : 0 < detM_tolerance.
Proof. unfold detM_tolerance. lra. Qed.

Lemma almost_equal_refl (x : R) : almost_equal x x = true.
Proof.
  unfold almost_equal. rewrite Rminus_diag, Rabs_R0.
  apply Rltb_true. lra.
Qed.

(** Cramer's rule: with a non-zero determinant the two parametrizations
    give one point. *)
Lemma intersection_point (L1a L1b L2a L2b : complex) :
  let L1t := Csub L1b L1a in
  let L2t := Csub L2b L2a in
  let b := Csub L1a L2a in
  let detM := im L1t * re L2t - re L1t * im L2t in
  let s1 := (im L2t * re b - re L2t * im b) / detM in
  let s2 := (im L1t * re b - re L1t * im b) / detM in
  detM <> 0 ->
  Cadd L1a (Cmul (RtoC s1) L1t) = Cadd L2a (Cmul (RtoC s2) L2t).
Proof.
  destruct L1a as [x1 y1], L1b as [x2 y2], L2a as [u1 v1], L2b as [u2 v2].
  cbv zeta. unfold Cadd, Cmul, Csub, RtoC; cbn [re im].
  intros Hdet. f_equal; field; exact Hdet.
Qed.

(** The three cases of [_find_intersection], which never raises: [None] when the
    determinant is below the tolerance in magnitude or when [s1] or [s2]
    lies outside [0, 1], and the pair [(s1, s2)] otherwise; every pair it
    returns has both components in [0, 1] and the two parametrizations
    [L1a + s1 (L1b - L1a)] and [L2a + s2 (L2b - L2a)] give the same
    point. *)
Lemma find_intersection_cases (L1a L1b L2a L2b : complex) :
  let L1t := Csub L1b L1a in
  let L2t := Csub L2b L2a in
  let b := Csub L1a L2a in
  let detM := im L1t * re L2t - re L1t * im L2t in
  let s1 := (im L2t * re b - re L2t * im b) / detM in
  let s2 := (im L1t * re b - re L1t * im b) / detM in
  (Rabs detM < detM_tolerance \/ s1 < 0 \/ 1 < s1 \/ s2 < 0 \/ 1 < s2 ->
   _find_intersection L1a L1b L2a L2b = Ret None) /\
  (detM_tolerance <= Rabs detM -> 0 <= s1 <= 1 -> 0 <= s2 <= 1 ->
   _find_intersection L1a L1b L2a L2b = Ret (Some (s1, s2))) /\
  (forall r1 r2,
     _find_intersection L1a L1b L2a L2b = Ret (Some (r1, r2)) ->
     0 <= r1 <= 1 /\ 0 <= r2 <= 1 /\
     Cadd L1a (Cmul (RtoC r1) L1t) = Cadd L2a (Cmul (RtoC r2) L2t)).
Proof.
  intros L1t L2t b detM s1 s2.
  assert (Hpoint : detM_tolerance <= Rabs detM ->
                   Cadd L1a (Cmul (RtoC s1) L1t) = Cadd L2a (Cmul (RtoC s2) L2t)).
  { intros Hbig. apply intersection_point. fold L1t L2t. fold detM.
    intros H0. rewrite H0, Rabs_R0 in Hbig.
    pose proof detM_tolerance_pos. lra. }
  unfold _find_intersection.
  fold L1t L2t b. fold detM. fold s1 s2.
  destruct (Rltb_spec (Rabs detM) detM_tolerance) as [Hsmall | Hbig].
  { split; [reflexivity |]. split; [intros; lra | discriminate]. }
  apply Rnot_lt_le in Hbig. specialize (Hpoint Hbig).
  destruct (Rltb_spec s1 0) as [H1 | H1]; cbn [orb].
  { split; [reflexivity |]. split; [intros; lra | discriminate]. }
  destruct (Rltb_spec 1 s1) as [H2 | H2].
  { split; [reflexivity |]. split; [intros; lra | discriminate]. }
  destruct (Rltb_spec s2 0) as [H3 | H3]; cbn [orb].
  { split; [reflexivity |]. split; [intros; lra | discriminate]. }
  destruct (Rltb_spec 1 s2) as [H4 | H4].
  { split; [reflexivity |]. split; [intros; lra | discriminate]. }
  unfold assert_almost_equal. rewrite Hpoint, !almost_equal_refl. cbn [andb bind].
  split; [intros; lra |]. split; [reflexivity |].
  intros r1 r2 Heq. injection Heq as <- <-.
  repeat split; try lra. exact Hpoint.
Qed.

(** The horizontal segment from -1 to 1 and the vertical segment from -j
    to j cross at the middle of both. *)
Lemma find_intersection_cross :
  _find_intersection (mkC (-1) 0) (mkC 1 0) (mkC 0 (-1)) (mkC 0 1)
  = Ret (Some (1 / 2, 1 / 2)).
Proof.
  pose proof (find_intersection_cases (mkC (-1) 0) (mkC 1 0) (mkC 0 (-1)) (mkC 0 1))
    as (_ & Hsome & _).
  cbv zeta in Hsome. unfold Csub in Hsome. cbn [re im] in Hsome.
  replace (0 - 0) with 0 in Hsome by ring.
  replace (1 - -1) with 2 in Hsome by ring.
  replace (-1 - 0) with (-1) in Hsome by ring.
  replace (0 - -1) with 1 in Hsome by ring.
  replace (0 * 0 - 2 * 2) with (-4) in Hsome by ring.
  replace ((2 * -1 - 0 * 1) / -4) with (1 / 2) in Hsome by field.
  replace ((0 * -1 - 2 * 1) / -4) with (1 / 2) in Hsome by field.
  apply Hsome; try lra.
  rewrite Rabs_left by lra. unfold detM_tolerance. lra.
Qed.

(** C7: [_find_intersection] returns [None] when the determinant is below
    the tolerance in magnitude or when [s1] or [s2] lies outside [0, 1],
    and the pair [(s1, s2)] otherwise (it never raises); every pair it
    returns has both components in [0, 1], and the two parametrizations
    [L1a + s1 (L1b - L1a)] and [L2a + s2 (L2b - L2a)] give the same
    point. *)
Theorem find_intersection_spec (L1a L1b L2a L2b : complex) :
  let L1t := Csub L1b L1a in
  let L2t := Csub L2b L2a in
  let b := Csub L1a L2a in
  let detM := im L1t * re L2t - re L1t * im L2t in
  let s1 := (im L2t * re b - re L2t * im b) / detM in
  let s2 := (im L1t * re b - re L1t * im b) / detM in
  (Rabs detM < detM_tolerance \/ s1 < 0 \/ 1 < s1 \/ s2 < 0 \/ 1 < s2 ->
   _find_intersection L1a L1b L2a L2b = Ret None) /\
  (detM_tolerance <= Rabs detM -> 0 <= s1 <= 1 -> 0 <= s2 <= 1 ->
   _find_intersection L1a L1b L2a L2b = Ret (Some (s1, s2))) /\
  (forall r1 r2,
     _find_intersection L1a L1b L2a L2b = Ret (Some (r1, r2)) ->
     0 <= r1 <= 1 /\ 0 <= r2 <= 1 /\
     Cadd L1a (Cmul (RtoC r1) L1t) = Cadd L2a (Cmul (RtoC r2) L2t)).
Proof. exact (find_intersection_cases L1a L1b L2a L2b). Qed.

Lemma find_intersection_spec_witness :
  _find_intersection (mkC (-1) 0) (mkC 1 0) (mkC 0 (-1)) (mkC 0 1)
  = Ret (Some (1 / 2, 1 / 2)) /\
  0 <= 1 / 2 <= 1 /\ 0 <= 1 / 2 <= 1 /\
  Cadd (mkC (-1) 0) (Cmul (RtoC (1 / 2)) (Csub (mkC 1 0) (mkC (-1) 0)))
  = Cadd (mkC 0 (-1)) (Cmul (RtoC (1 / 2)) (Csub (mkC 0 1) (mkC 0 (-1)))).
Proof.
  split; [exact find_intersection_cross |].
  pose proof (find_intersection_spec (mkC (-1) 0) (mkC 1 0) (mkC 0 (-1)) (mkC 0 1))
    as (_ & _ & Hret).
  exact (Hret (1 / 2) (1 / 2) find_intersection_cross).
Defined.

(* ------------------------------------------------------------------ *)
(** ** describing_function *)

Lemma fcn_calls_callable (f : R -> R) (xs : list R) :
  fcn_calls (Callable f) xs = Ret (Callable f, map f xs).
Proof.
  induction xs as [| x xs IH]; [reflexivity |].
  cbn [fcn_calls fcn_call bind]. rewrite IH. reflexivity.
Qed.

(** With at least two points the grid has a first and a second angle. *)
Lemma linspace_two (start stop : R) (n : Z) :
  (2 <= n)%Z ->
  exists t0 t1 rest, linspace start stop n = Ret (t0 :: t1 :: rest).
Proof.
  intros Hn. unfold linspace.
  destruct (Z.ltb_spec n 0) as [Hneg | _]; [lia |].
  destruct (Z.eqb_spec n 1) as [H1 | _]; [lia |].
  destruct (Z.to_nat n) as [| [| k]] eqn:Hk; [lia | lia |].
  cbn [seq map]. eauto.
Qed.

Lemma callable_has_no_method (f : R -> R) (try_method : bool) :
  (if try_method then fcn_method (Callable f) else None) = None.
Proof. destruct try_method; reflexivity. Qed.

(** The numerical branch on a plain function and one amplitude, up to
    the loop over the amplitudes. *)
Lemma describing_function_callable_scalar
  (f : R -> R) (a : R) (n : Z) (zero_check try_method : bool) :
  (2 <= n)%Z ->
  exists sin_theta cos_theta dtheta,
    describing_function (Callable f) (Scalar a) n zero_check try_method
    = ('(F1, df) <- df_loop zero_check sin_theta cos_theta dtheta (Callable f) [a] ;;
       v <- reshape_like (Scalar a) df ;;
       Ret (F1, v)).
Proof.
  intros Hn. unfold describing_function.
  rewrite callable_has_no_method.
  destruct (linspace_two 0 (2 * PI) n Hn) as (t0 & t1 & rest & Hgrid).
  rewrite Hgrid. cbn [bind getitem nth_error atleast_1d array_min fold_left].
  rewrite fcn_calls_callable. cbn [bind]. eauto.
Qed.

(** The numerical branch rejects a negative amplitude. *)
Lemma describing_function_callable_negative
  (f : R -> R) (a : R) (n : Z) (zero_check try_method : bool) :
  (2 <= n)%Z -> a < 0 ->
  describing_function (Callable f) (Scalar a) n zero_check try_method
  = Raise negative_error.
Proof.
  intros Hn Ha.
  destruct (describing_function_callable_scalar f a n zero_check try_method Hn)
    as (st & ct & dt & ->).
  cbn [df_loop]. rcmp. reflexivity.
Qed.

(** The numerical branch at amplitude 0 with the check on. *)
Lemma describing_function_callable_zero (f : R -> R) (n : Z) (try_method : bool) :
  (2 <= n)%Z ->
  describing_function (Callable f) (Scalar 0) n true try_method
  = if Reqb (f 0) 0 then Ret (Callable f, Scalar (PyFloat 1)) else Raise zero_error.
Proof.
  intros Hn.
  destruct (describing_function_callable_scalar f 0 n true try_method Hn)
    as (st & ct & dt & ->).
  cbn [df_loop]. rewrite (Reqb_true 0 0) by reflexivity.
  cbn [fcn_call bind]. destruct (Reqb (f 0) 0); reflexivity.
Qed.

(** C1 fails on the code: with the default options the three built-in
    nonlinearities are sent to their closed forms, none of which checks
    the sign of the amplitude.  At amplitude -1 the saturation with bound
    1 returns 1.0, the relay with [b = 1], [c = 1/2] returns nan and the
    backlash with [b = 2] returns 0; nothing is raised. *)
Theorem describing_function_negative_amplitude_builtin :
  describing_function_default (Saturation (fst (saturation_init 1 None))) (Scalar (-1))
  = Ret (Saturation (fst (saturation_init 1 None)), Scalar (PyFloat 1)) /\
  describing_function_default (RelayHysteresis (relay_init 1 (1 / 2))) (Scalar (-1))
  = Ret (RelayHysteresis (relay_init 1 (1 / 2)), Scalar PyNan) /\
  describing_function_default (Backlash (backlash_init 2)) (Scalar (-1))
  = Ret (Backlash (backlash_init 2), Scalar (PyInt 0)).
Proof.
  unfold describing_function_default, describing_function.
  cbn [fcn_method atleast_1d mapM].
  rewrite saturation_init_symmetric by lra. cbn [fst].
  unfold saturation_describing_function, relay_describing_function,
    backlash_describing_function, relay_init, backlash_init.
  cbn [sat_lb sat_ub relay_c backlash_b].
  rcmp. repeat split; reflexivity.
Qed.

(** C2, as the code has it: at amplitude 0 with [zero_check=True] (and at
    least two sample points), a plain function with a non-zero value at
    zero is rejected with the validation error and one that is zero at
    zero gives 1.0; the saturation built-in (with [lb <= 0 <= ub]) gives
    1.0 through its closed form; the backlash built-in (with [b >= 0])
    gives 0 through its closed form. *)
Theorem describing_function_at_zero (n : Z) (try_method : bool) :
  (2 <= n)%Z ->
  (forall f, f 0 <> 0 ->
     describing_function (Callable f) (Scalar 0) n true try_method
     = Raise zero_error) /\
  (forall f, f 0 = 0 ->
     describing_function (Callable f) (Scalar 0) n true try_method
     = Ret (Callable f, Scalar (PyFloat 1))) /\
  (forall s, sat_lb s <= 0 <= sat_ub s ->
     describing_function (Saturation s) (Scalar 0) n true true
     = Ret (Saturation s, Scalar (PyFloat 1))) /\
  (forall bl, 0 <= backlash_b bl ->
     describing_function (Backlash bl) (Scalar 0) n true true
     = Ret (Backlash bl, Scalar (PyInt 0))).
Proof.
  intros Hn. repeat split.
  - intros f Hf. rewrite describing_function_callable_zero by assumption.
    now rewrite Reqb_false.
  - intros f Hf. rewrite describing_function_callable_zero by assumption.
    now rewrite Reqb_true.
  - intros s [Hlb Hub]. unfold describing_function.
    cbn [fcn_method atleast_1d mapM]. unfold saturation_describing_function.
    rcmp. reflexivity.
  - intros bl Hb. unfold describing_function.
    cbn [fcn_method atleast_1d mapM]. unfold backlash_describing_function.
    rewrite Rleb_true by lra. reflexivity.
Qed.

Lemma describing_function_at_zero_witness :
  describing_function (Callable (fun x => x + 1 / 2)) (Scalar 0) 100 true true
  = Raise zero_error /\
  describing_function (Callable (fun x => x * x * x)) (Scalar 0) 100 true true
  = Ret (Callable (fun x => x * x * x), Scalar (PyFloat 1)) /\
  describing_function (Saturation (mkSaturation (-1) 1)) (Scalar 0) 100 true true
  = Ret (Saturation (mkSaturation (-1) 1), Scalar (PyFloat 1)) /\
  describing_function (Backlash (backlash_init 2)) (Scalar 0) 100 true true
  = Ret (Backlash (backlash_init 2), Scalar (PyInt 0)).
Proof.
  assert (Hn : (2 <= 100)%Z) by lia.
  destruct (describing_function_at_zero 100 true Hn) as (Hbad & Hgood & Hsat & Hbl).
  split; [apply Hbad; lra |].
  split; [apply Hgood; lra |].
  split; [apply Hsat; simpl; lra |].
  apply Hbl; simpl; lra.
Defined.

(** C2 as stated fails for the backlash built-in: [backlash(b=2)] is zero
    at zero input (its center starts at 0), yet at amplitude 0 with
    [zero_check=True] the estimator returns the int 0 of the closed form,
    not 1.0. *)
Lemma backlash_at_zero_is_not_one :
  fcn_call (Backlash (backlash_init 2)) 0
  = Ret (Backlash (backlash_init 2), 0) /\
  describing_function (Backlash (backlash_init 2)) (Scalar 0) 100 true true
  = Ret (Backlash (backlash_init 2), Scalar (PyInt 0)) /\
  describing_function (Backlash (backlash_init 2)) (Scalar 0) 100 true true
  <> Ret (Backlash (backlash_init 2), Scalar (PyFloat 1)).
Proof.
  assert (Hdf : describing_function (Backlash (backlash_init 2)) (Scalar 0) 100 true true
                = Ret (Backlash (backlash_init 2), Scalar (PyInt 0))).
  { unfold describing_function.
    cbn [fcn_method atleast_1d mapM]. unfold backlash_describing_function.
    cbn [backlash_init backlash_b]. rewrite Rleb_true by lra. reflexivity. }
  split; [| split; [exact Hdf | rewrite Hdf; discriminate]].
  cbn [fcn_call]. rewrite backlash_call_scalar.
  unfold backlash_step, backlash_init; cbn [backlash_b center].
  rcmp. reflexivity.
Qed.

(* ------------------------------------------------------------------ *)
(** ** describing_function_plot *)

(** Two loops that step related states to related states end in related
    states: the second loop returns whenever the first one does. *)
Lemma foldM_simulation {A S : Type} (Rel : S -> S -> Prop)
  (f g : S -> A -> outcome S) :
  (forall s t a s', Rel s t -> f s a = Ret s' ->
                    exists t', g t a = Ret t' /\ Rel s' t') ->
  forall l s t s', Rel s t -> foldM f l s = Ret s' ->
                   exists t', foldM g l t = Ret t' /\ Rel s' t'.
Proof.
  intros Hstep l. induction l as [| a l IH]; intros s t s' Hrel Hrun.
  - simpl in Hrun. injection Hrun as <-. exists t. split; [reflexivity | assumption].
  - simpl in Hrun. destruct (f s a) as [s1 | e |] eqn:Hf; try discriminate.
    destruct (Hstep s t a s1 Hrel Hf) as (t1 & Hg & Hrel1).
    simpl. rewrite Hg. simpl. eapply IH; eassumption.
Qed.

Section Refinement.

Variable H : complex -> complex.
Variable nyquist_plot : option (list R) -> list (R * R * R).
Variable minimize : (R * R -> outcome R) -> R * R -> OptimizeResult.
Variable F : fcn.

Lemma locate_pair_simulation (a : list R) (N_vals H_vals : list complex)
  (H_omega : list R) (label : string) (i j : nat)
  (coarse fine coarse' : plot_state) :
  follows H minimize F coarse fine ->
  locate_pair H minimize F a N_vals H_vals H_omega false label coarse i j
  = Ret coarse' ->
  exists fine',
    locate_pair H minimize F a N_vals H_vals H_omega true label fine i j
    = Ret fine' /\ follows H minimize F coarse' fine'.
Proof.
  intros (Hw & Hint & Hwarn). unfold locate_pair.
  destruct (getitem N_vals i) as [n0 | |]; try discriminate.
  destruct (getitem N_vals (i + 1)) as [n1 | |]; try discriminate.
  destruct (getitem H_vals j) as [h0 | |]; try discriminate.
  destruct (getitem H_vals (j + 1)) as [h1 | |]; try discriminate.
  cbn [bind].
  destruct (_find_intersection n0 n1 h0 h1) as [[[s_amp s_omega] |] | |];
    try discriminate; cbn [bind].
  - destruct (getitem a i) as [a0 | |]; try discriminate.
    destruct (getitem a (i + 1)) as [a1 | |]; try discriminate.
    destruct (getitem H_omega j) as [w0 | |]; try discriminate.
    destruct (getitem H_omega (j + 1)) as [w1 | |]; try discriminate.
    cbn [bind]. intros Hrun. injection Hrun as <-.
    set (g := ((1 - s_amp) * a0 + s_amp * a1, (1 - s_omega) * w0 + s_omega * w1)).
    assert (Hg : forall res : OptimizeResult,
               (if negb (success res)
                then (fst g, snd g, [refine_warning])
                else (fst (res_x res), snd (res_x res), []))
               = (fst (refined res g), snd (refined res g),
                  if success res then [] else [refine_warning])).
    { intros res. unfold refined. destruct (success res); reflexivity. }
    cbn [fst snd] in Hg. rewrite Hg. fold (final H minimize F g). fold (warned H minimize F g).
    eexists. split; [reflexivity |].
    unfold follows; cbn [intersections warnings drawn].
    rewrite Hw, Hint, Hwarn, map_app, flat_map_app. cbn [map flat_map].
    rewrite !app_nil_r, <- surjective_pairing. auto.
  - intros Hrun. injection Hrun as <-.
    exists fine. split; [reflexivity |]. unfold follows. auto.
Qed.

(** The locator with refinement, against the locator without it. *)
Lemma describing_function_plot_simulation
  (F0 : fcn) (a : list R) (omega : option (list R)) (label : string)
  (coarse : plot_state) :
  (forall F1 dfv, describing_function_default F0 (Array a) = Ret (F1, dfv) -> F1 = F) ->
  describing_function_plot H nyquist_plot minimize F0 a omega false label
  = Ret coarse ->
  exists fine,
    describing_function_plot H nyquist_plot minimize F0 a omega true label
    = Ret fine /\
    intersections fine = map (final H minimize F) (intersections coarse) /\
    warnings fine = flat_map (warned H minimize F) (intersections coarse).
Proof.
  intros Hsame. unfold describing_function_plot.
  destruct (describing_function_default F0 (Array a)) as [[F1 dfv] | |] eqn:Hdf;
    try discriminate.
  rewrite (Hsame F1 dfv eq_refl). cbn [bind].
  destruct (mapM neg_recip (atleast_1d dfv)) as [N_vals | |]; try discriminate.
  cbn [bind]. intros Hrun.
  eapply (foldM_simulation (follows H minimize F)) in Hrun.
  - destruct Hrun as (fine & Hfine & _ & Hint & Hwarn). exists fine. eauto.
  - intros s t i s' Hrel Hinner.
    eapply (foldM_simulation (follows H minimize F)); [| exact Hrel | exact Hinner].
    intros s0 t0 j s0' Hrel0 Hpair.
    eapply locate_pair_simulation; eassumption.
  - unfold follows. cbn [intersections warnings map flat_map]. auto.
Qed.

End Refinement.

Lemma df_loop_callable (f : R -> R) (zero_check : bool)
  (sin_theta cos_theta : list R) (dtheta : R) (amps : list R) :
  forall F' df,
    df_loop zero_check sin_theta cos_theta dtheta (Callable f) amps = Ret (F', df) ->
    F' = Callable f.
Proof.
  induction amps as [| a amps IH]; intros F' df; cbn [df_loop].
  - intros Heq. now injection Heq as <- _.
  - destruct (Reqb a 0).
    + destruct zero_check; cbn [fcn_call bind].
      * destruct (negb (Reqb (f 0) 0)); [discriminate |].
        destruct (df_loop true sin_theta cos_theta dtheta (Callable f) amps)
          as [[F2 df2] | |] eqn:Hrest; try discriminate.
        cbn [bind]. intros Heq. injection Heq as <- _. now apply (IH F2 df2).
      * destruct (df_loop false sin_theta cos_theta dtheta (Callable f) amps)
          as [[F2 df2] | |] eqn:Hrest; try discriminate.
        cbn [bind]. intros Heq. injection Heq as <- _. now apply (IH F2 df2).
    + destruct (Rltb a 0); [discriminate |].
      rewrite fcn_calls_callable. cbn [bind].
      destruct (df_loop zero_check sin_theta cos_theta dtheta (Callable f) amps)
        as [[F2 df2] | |] eqn:Hrest; try discriminate.
      cbn [bind]. intros Heq. injection Heq as <- _. now apply (IH F2 df2).
Qed.

(** With [try_method=True] the estimator hands back the object in the
    state it received it: the closed forms do not touch the state, and
    the numerical branch is then reached by plain functions only. *)
Lemma describing_function_keeps_object (F : fcn) (amp : shaped R)
  (n : Z) (zero_check : bool) (F1 : fcn) (v : shaped pyval) :
  describing_function F amp n zero_check true = Ret (F1, v) -> F1 = F.
Proof.
  unfold describing_function.
  destruct F as [f | s | r | bl]; cbn [fcn_method].
  2-4: match goal with
       | |- context [mapM ?m ?l] => destruct (mapM m l) as [df | |]; try discriminate
       end; cbn [bind];
       match goal with
       | |- context [reshape_like ?x ?l] =>
           destruct (reshape_like x l) as [w | |]; try discriminate
       end; cbn [bind]; intros Heq; now injection Heq as <- _.
  destruct (linspace 0 (2 * PI) n) as [theta | |]; try discriminate. cbn [bind].
  destruct (getitem theta 1) as [t1 | |]; try discriminate. cbn [bind].
  destruct (getitem theta 0) as [t0 | |]; try discriminate. cbn [bind].
  destruct (array_min (atleast_1d amp)) as [amin | |]; try discriminate. cbn [bind].
  rewrite fcn_calls_callable. cbn [bind].
  destruct (df_loop zero_check (map sin theta) (map cos theta) (t1 - t0) (Callable f)
              (atleast_1d amp)) as [[F2 df] | |] eqn:Hloop; try discriminate.
  cbn [bind]. destruct (reshape_like amp df) as [w | |]; try discriminate.
  cbn [bind]. intros Heq. injection Heq as <- _.
  eapply df_loop_callable; eassumption.
Qed.

(** C8: whenever the locator without refinement returns its list of
    coarse estimates, the locator with refinement returns too, whatever
    the minimizer reports: its list has one pair per coarse estimate, in
    the same order; the pair of an estimate whose minimization reports
    failure is the coarse estimate itself, the others are the minimizer's
    [res.x]; and one warning is emitted per failed minimization. *)
Theorem refinement_failure_keeps_estimate
  (H : complex -> complex) (nyquist_plot : option (list R) -> list (R * R * R))
  (minimize : (R * R -> outcome R) -> R * R -> OptimizeResult)
  (F : fcn) (a : list R) (omega : option (list R)) (label : string)
  (coarse : plot_state) :
  describing_function_plot H nyquist_plot minimize F a omega false label
  = Ret coarse ->
  exists fine,
    describing_function_plot H nyquist_plot minimize F a omega true label
    = Ret fine /\
    intersections fine = map (final H minimize F) (intersections coarse) /\
    (forall k g,
       nth_error (intersections coarse) k = Some g ->
       success (minimize (_cost H F) g) = false ->
       nth_error (intersections fine) k = Some g) /\
    warnings fine = flat_map (warned H minimize F) (intersections coarse).
Proof.
  intros Hrun.
  destruct (describing_function_plot_simulation H nyquist_plot minimize F F a omega
              label coarse) as (fine & Hfine & Hint & Hwarn).
  - intros F1 dfv Hdf. eapply describing_function_keeps_object. exact Hdf.
  - exact Hrun.
  - exists fine. split; [exact Hfine |]. split; [exact Hint |].
    split; [| exact Hwarn].
    intros k g Hk Hfail. rewrite Hint.
    rewrite (map_nth_error _ k (intersections coarse) Hk).
    unfold final, refined. now rewrite Hfail.
Qed.

(** *** A worked crossing

    The relay with [b = pi] and [c = 3], at the amplitudes 3 and 5, has
    the describing function values [-4j/3] and [(16 - 12j)/25], so that
    [-1/N] runs on the horizontal line from [-3j/4] to [-1 - 3j/4].  A
    plant locus that goes up the vertical line from [-1/2 - j] at
    frequency 1 to [-1/2] at frequency 2 crosses it once, half-way
    between the amplitudes and a quarter of the way between the
    frequencies. *)

Lemma relay_example_df3 :
  relay_describing_function (relay_init PI 3) 3 = Ret (PyComplex (mkC 0 (- (4 / 3)))).
Proof.
  assert (Hpi := PI_RGT_0). unfold relay_init.
  destruct (relay_describing_function_cases (-1) PI 3 3) as (_ & Hge); try lra.
  destruct Hge as (-> & _); [lra |].
  replace (1 - (3 / 3) ^ 2) with 0 by field. rewrite sqrt_0.
  do 3 f_equal; field; lra.
Qed.

Lemma relay_example_df5 :
  relay_describing_function (relay_init PI 3) 5
  = Ret (PyComplex (mkC (16 / 25) (- (12 / 25)))).
Proof.
  assert (Hpi := PI_RGT_0). unfold relay_init.
  destruct (relay_describing_function_cases (-1) PI 3 5) as (_ & Hge); try lra.
  destruct Hge as (-> & _); [lra |].
  replace (1 - (3 / 5) ^ 2) with ((4 / 5) * (4 / 5)) by field.
  rewrite sqrt_square by lra.
  do 3 f_equal; field; lra.
Qed.

Lemma neg_recip_example3 :
  neg_recip (PyComplex (mkC 0 (- (4 / 3)))) = Ret (mkC 0 (- (3 / 4))).
Proof.
  unfold neg_recip, Cdiv, RtoC. cbn [re im].
  rewrite Reqb_false by lra. do 2 f_equal; field.
Qed.

Lemma neg_recip_example5 :
  neg_recip (PyComplex (mkC (16 / 25) (- (12 / 25)))) = Ret (mkC (-1) (- (3 / 4))).
Proof.
  unfold neg_recip, Cdiv, RtoC. cbn [re im].
  rewrite Reqb_false by lra. do 2 f_equal; field.
Qed.

Lemma find_intersection_example :
  _find_intersection (mkC 0 (- (3 / 4))) (mkC (-1) (- (3 / 4)))
                     (mkC (- (1 / 2)) (-1)) (mkC (- (1 / 2)) 0)
  = Ret (Some (1 / 2, 1 / 4)).
Proof.
  pose proof (find_intersection_cases (mkC 0 (- (3 / 4))) (mkC (-1) (- (3 / 4)))
                (mkC (- (1 / 2)) (-1)) (mkC (- (1 / 2)) 0)) as (_ & Hsome & _).
  cbv zeta in Hsome. unfold Csub in Hsome. cbn [re im] in Hsome.
  replace (- (3 / 4) - - (3 / 4)) with 0 in Hsome by ring.
  replace (- (1 / 2) - - (1 / 2)) with 0 in Hsome by ring.
  replace (-1 - 0) with (-1) in Hsome by ring.
  replace (0 - -1) with 1 in Hsome by ring.
  replace (0 - - (1 / 2)) with (1 / 2) in Hsome by ring.
  replace (- (3 / 4) - -1) with (1 / 4) in Hsome by field.
  replace (0 * 0 - -1 * 1) with 1 in Hsome by ring.
  replace ((1 * (1 / 2) - 0 * (1 / 4)) / 1) with (1 / 2) in Hsome by field.
  replace ((0 * (1 / 2) - -1 * (1 / 4)) / 1) with (1 / 4) in Hsome by field.
  apply Hsome; try lra.
  rewrite Rabs_R1. unfold detM_tolerance. lra.
Qed.

Lemma example_coarse_run :
  exists coarse,
    describing_function_plot example_plant example_nyquist failing_minimize
      (RelayHysteresis (relay_init PI 3)) [3; 5] None false default_label
    = Ret coarse /\
    intersections coarse = [(4, 5 / 4)].
Proof.
  unfold describing_function_plot, describing_function_default, describing_function.
  cbn [fcn_method atleast_1d mapM].
  rewrite relay_example_df3, relay_example_df5.
  cbn [bind reshape_like List.length Nat.eqb atleast_1d mapM].
  rewrite neg_recip_example3, neg_recip_example5.
  cbn [bind example_nyquist map List.length Nat.sub seq foldM fst snd].
  rewrite !real_plus_j_eq.
  unfold locate_pair.
  cbn [getitem nth_error Nat.add bind].
  rewrite find_intersection_example.
  cbn [bind default_label String.eqb Ascii.eqb Bool.eqb intersections warnings drawn app].
  eexists. split; [reflexivity |].
  cbn [intersections]. do 2 f_equal; field.
Qed.

Lemma refinement_failure_keeps_estimate_witness :
  exists coarse fine,
    describing_function_plot example_plant example_nyquist failing_minimize
      (RelayHysteresis (relay_init PI 3)) [3; 5] None false default_label
    = Ret coarse /\
    intersections coarse = [(4, 5 / 4)] /\
    describing_function_plot example_plant example_nyquist failing_minimize
      (RelayHysteresis (relay_init PI 3)) [3; 5] None true default_label
    = Ret fine /\
    intersections fine = [(4, 5 / 4)] /\
    warnings fine = [refine_warning].
Proof.
  destruct example_coarse_run as (coarse & Hrun & Hint).
  destruct (refinement_failure_keeps_estimate example_plant example_nyquist
              failing_minimize (RelayHysteresis (relay_init PI 3)) [3; 5] None
              default_label coarse Hrun) as (fine & Hfine & Hmap & _ & Hwarn).
  exists coarse, fine. rewrite Hint in Hmap, Hwarn.
  repeat split; assumption.
Defined.

(* ------------------------------------------------------------------ *)
(** * Further properties of the module *)

(** ** saturation_nonlinearity.__call__ *)

Ltac rminmax :=
  unfold saturation_call, Rmax, Rmin; cbn [sat_lb sat_ub];
  repeat match goal with
         | |- context [Rle_dec ?x ?y] => destruct (Rle_dec x y) in *
         | H : context [Rle_dec ?x ?y] |- _ => destruct (Rle_dec x y) in *
         end; try lra.

(** X1: with [lb <= ub], the value of a saturation lies in [[lb, ub]],
    inputs inside the bounds pass unchanged, saturating twice is
    saturating once, and the function is monotone. *)
Theorem saturation_call_clamps (lb ub : R) :
  lb <= ub ->
  let s := mkSaturation lb ub in
  (forall x, lb <= saturation_call s x <= ub) /\
  (forall x, lb <= x <= ub -> saturation_call s x = x) /\
  (forall x, saturation_call s (saturation_call s x) = saturation_call s x) /\
  (forall x y, x <= y -> saturation_call s x <= saturation_call s y).
Proof.
  intros Hb s. subst s. repeat split; intros; rminmax.
Qed.

Lemma saturation_call_clamps_witness :
  let s := mkSaturation (-1) 2 in
  (forall x, -1 <= saturation_call s x <= 2) /\
  (forall x, -1 <= x <= 2 -> saturation_call s x = x) /\
  (forall x, saturation_call s (saturation_call s x) = saturation_call s x) /\
  (forall x y, x <= y -> saturation_call s x <= saturation_call s y).
Proof. apply (saturation_call_clamps (-1) 2). lra. Defined.

(** X2: the saturation built from one bound is an odd function, whatever
    the sign of the bound given. *)
Theorem saturation_call_odd (ub x : R) :
  let s := fst (saturation_init ub None) in
  saturation_call s (- x) = - saturation_call s x.
Proof.
  unfold saturation_init. cbn [fst].
  pose proof (Rabs_pos ub) as Habs.
  rminmax.
Qed.

(** X3: inverted bounds [lb > ub] always draw the constructor's warning,
    and the object then sends every input to [lb]. *)
Theorem saturation_call_inverted (lb ub x : R) :
  ub < lb ->
  snd (saturation_init ub (Some lb)) = [asymmetric_warning] /\
  saturation_call (fst (saturation_init ub (Some lb))) x = lb.
Proof.
  intros Hinv. unfold saturation_init.
  rewrite asymmetric_test.
  - split; [reflexivity |]. cbn [fst]. rminmax.
  - destruct (Rlt_dec 0 lb); [now left | right; left; lra].
Qed.

Lemma saturation_call_inverted_witness :
  snd (saturation_init (-1) (Some 1)) = [asymmetric_warning] /\
  saturation_call (fst (saturation_init (-1) (Some 1))) 5 = 1.
Proof. apply (saturation_call_inverted 1 (-1) 5). lra. Defined.

(** ** NonlinearFunction._f and the closed form of the saturation *)

(** [t + sin t cos t] on the first quarter of the circle. *)
Lemma quarter_sum_bounds (t : R) :
  0 <= t <= PI / 2 ->
  0 <= t + sin t * cos t <= PI / 2 /\
  (0 < t -> 0 < t + sin t * cos t) /\
  (t < PI / 2 -> t + sin t * cos t < PI / 2).
Proof.
  intros [H0 Hq]. assert (Hpi := PI_RGT_0).
  assert (Hs : 0 <= sin t) by (apply sin_ge_0; lra).
  assert (Hc : 0 <= cos t) by (apply cos_ge_0; lra).
  assert (Hsc : 0 <= sin t * cos t) by (apply Rmult_le_pos; assumption).
  assert (H2 : sin t * cos t = sin (PI - 2 * t) / 2).
  { rewrite sin_PI_x, sin_2a. field. }
  assert (Hle : sin (PI - 2 * t) <= PI - 2 * t).
  { destruct (Req_dec (PI - 2 * t) 0) as [Hz | Hz].
    - rewrite Hz, sin_0. lra.
    - left. apply sin_lt_x. lra. }
  split; [lra |]. split; [intros; lra |].
  intros Hlt. assert (sin (PI - 2 * t) < PI - 2 * t) by (apply sin_lt_x; lra). lra.
Qed.

Lemma asin_nonneg (z : R) : 0 <= z <= 1 -> 0 <= asin z <= PI / 2.
Proof.
  intros Hz. destruct (asin_bound z) as [Hlo Hhi]. split; [| assumption].
  destruct (Rle_dec 0 (asin z)) as [Hge | Hneg]; [assumption |].
  assert (Hpi := PI_RGT_0).
  assert (Hs : sin (asin z) < 0) by (apply sin_lt_0_var; lra).
  rewrite sin_asin in Hs by lra. lra.
Qed.

(** Inside [[-1, 1]] the sector function is [(t + sin t cos t) 2/pi] at
    [t = asin z]. *)
Lemma f_spec_inside (z : R) :
  -1 <= z <= 1 ->
  f_spec z = (asin z + sin (asin z) * cos (asin z)) * 2 / PI.
Proof.
  intros Hz. unfold f_spec.
  rewrite Rltb_false by (apply Rabs_le; lra).
  rewrite sin_asin, cos_asin by assumption.
  replace (1 - z ^ 2) with (1 - z²) by (unfold Rsqr; ring). reflexivity.
Qed.

Lemma f_spec_odd (z : R) : f_spec (- z) = - f_spec z.
Proof.
  unfold f_spec. rewrite Rabs_Ropp.
  destruct (Rltb_spec 1 (Rabs z)) as [Hbig | Hsmall].
  - unfold sign.
    assert (Hz : z < -1 \/ 1 < z).
    { unfold Rabs in Hbig. destruct (Rcase_abs z); lra. }
    destruct Hz; rcmp; lra.
  - rewrite asin_opp. replace ((- z) ^ 2) with (z ^ 2) by ring. field.
    assert (Hpi := PI_RGT_0). lra.
Qed.

Lemma f_spec_unit_interval (z : R) :
  0 <= z ->
  0 <= f_spec z <= 1 /\
  (0 < z < 1 -> 0 < f_spec z < 1) /\
  (1 <= z -> f_spec z = 1).
Proof.
  intros Hz. assert (Hpi := PI_RGT_0).
  destruct (Rle_dec z 1) as [Hle | Hgt].
  - rewrite f_spec_inside by lra.
    pose proof (asin_nonneg z (conj Hz Hle)) as Ht.
    destruct (quarter_sum_bounds (asin z) Ht) as ([Hlo Hhi] & Hpos & Hlt).
    set (u := asin z + sin (asin z) * cos (asin z)) in *.
    assert (Hdiv : u * 2 / PI = u * (2 / PI)) by (field; lra).
    assert (Hk : 0 < 2 / PI) by (apply Rdiv_lt_0_compat; lra).
    assert (Hone : PI / 2 * (2 / PI) = 1) by (field; lra).
    rewrite Hdiv. split; [split; nra |]. split.
    + intros [Hz0 Hz1].
      assert (Ht0 : 0 < asin z).
      { destruct (Req_dec (asin z) 0) as [He | He]; [| lra].
        assert (Hs : sin (asin z) = z) by (apply sin_asin; lra).
        rewrite He, sin_0 in Hs. lra. }
      assert (Ht1 : asin z < PI / 2) by (apply asin_bound_lt; lra).
      specialize (Hpos Ht0). specialize (Hlt Ht1). split; nra.
    + intros H1. assert (z = 1) by lra. subst z. unfold u.
      rewrite asin_1, cos_PI2. rewrite Rmult_0_r, Rplus_0_r. exact Hone.
  - apply Rnot_le_lt in Hgt. unfold f_spec, sign.
    rewrite (Rltb_true 1 (Rabs z)) by (rewrite Rabs_pos_eq; lra).
    rcmp. repeat split; lra.
Qed.

(** X4: [_f] never raises; it is an odd function with values in
    [[-1, 1]], and its two branches agree where they meet: the value is 1
    from [x = 1] on and -1 up to [x = -1]. *)
Theorem _f_odd_bounded (x : R) :
  exists y,
    _f x = Ret y /\ _f (- x) = Ret (- y) /\
    -1 <= y <= 1 /\ (1 <= x -> y = 1) /\ (x <= -1 -> y = -1).
Proof.
  exists (f_spec x). rewrite !_f_refines_f_spec, f_spec_odd.
  split; [reflexivity |]. split; [reflexivity |].
  destruct (Rle_dec 0 x) as [Hpos | Hneg].
  - destruct (f_spec_unit_interval x Hpos) as (Hb & _ & H1).
    split; [lra |]. split; [exact H1 | intros; lra].
  - assert (Hx : 0 <= - x) by lra.
    destruct (f_spec_unit_interval (- x) Hx) as (Hb & _ & H1).
    rewrite f_spec_odd in Hb, H1.
    split; [lra |]. split; [intros; lra |].
    intros Hle. assert (H := H1 ltac:(lra)). lra.
Qed.

(** X5: for the symmetric saturation with bound [ub > 0] and an amplitude
    [A > ub], the closed form is the sector function [_f] at [ub/A], and
    the gain lies strictly between 0 and 1. *)
Theorem saturation_describing_function_sector (ub A : R) :
  0 < ub -> ub < A ->
  exists v,
    _f (ub / A) = Ret v /\
    saturation_describing_function (mkSaturation (- ub) ub) A = Ret (PyFloat v) /\
    0 < v < 1.
Proof.
  intros Hub HA. assert (Hpi := PI_RGT_0).
  assert (Hq : 0 < ub / A < 1).
  { split.
    - apply Rdiv_lt_0_compat; lra.
    - apply Rmult_lt_reg_r with A; [lra |]. field_simplify; lra. }
  exists (f_spec (ub / A)). rewrite _f_refines_f_spec.
  split; [reflexivity |]. split.
  - unfold saturation_describing_function; cbn [sat_lb sat_ub].
    rewrite (Rleb_false A ub) by lra. rewrite andb_false_r, Ropp_involutive.
    rewrite pydiv_ok by lra. cbn [bind].
    rewrite math_asin_ok by lra. cbn [bind].
    rewrite f_spec_inside by lra.
    do 2 f_equal.
    replace (asin (ub / A) - asin (ub / A)) with 0 by ring.
    replace (asin (ub / A) + asin (ub / A)) with (2 * asin (ub / A)) by ring.
    rewrite cos_0, sin_2a. field. lra.
  - apply f_spec_unit_interval; lra.
Qed.

Lemma saturation_describing_function_sector_witness :
  exists v,
    _f (1 / 2) = Ret v /\
    saturation_describing_function (mkSaturation (- 1) 1) 2 = Ret (PyFloat v) /\
    0 < v < 1.
Proof. apply (saturation_describing_function_sector 1 2); lra. Defined.

(** X6: for a saturation whose lower bound is deeper than its upper one
    ([0 < ub < -lb]), every amplitude strictly between [ub] and [-lb]
    makes the closed form raise the domain error of [math.asin]. *)
Theorem saturation_describing_function_domain_error (lb ub A : R) :
  0 < ub -> ub < A -> A < - lb ->
  saturation_describing_function (mkSaturation lb ub) A = Raise domain_error.
Proof.
  intros Hub HA Hlb.
  assert (Hq : 0 < ub / A < 1).
  { split.
    - apply Rdiv_lt_0_compat; lra.
    - apply Rmult_lt_reg_r with A; [lra |]. field_simplify; lra. }
  assert (Hbig : 1 < - lb / A).
  { apply Rmult_lt_reg_r with A; [lra |]. field_simplify; lra. }
  unfold saturation_describing_function; cbn [sat_lb sat_ub].
  rewrite (Rleb_false A ub) by lra. rewrite andb_false_r.
  rewrite !pydiv_ok by lra. cbn [bind].
  rewrite math_asin_ok by lra. cbn [bind].
  unfold math_asin. rewrite Rltb_true; [reflexivity |].
  rewrite Rabs_pos_eq; lra.
Qed.

Lemma saturation_describing_function_domain_error_witness :
  saturation_describing_function (mkSaturation (-3) 1) 2 = Raise domain_error.
Proof. apply (saturation_describing_function_domain_error (-3) 1 2); lra. Defined.

(** ** relay_hysteresis_nonlinearity *)

(** While the input stays at or above [-c], a relay on the upper branch
    stays there and returns [b]. *)
Lemma relay_trace_stays_up (xs : list R) :
  forall r, branch r = 1%Z ->
  Forall (fun u => - relay_c r <= u) xs ->
  exists t,
    relay_trace r xs = Ret t /\
    Forall (fun ry : relay_hysteresis_nonlinearity * R =>
              branch (fst ry) = 1%Z /\ snd ry = relay_b r) t.
Proof.
  induction xs as [| u xs IH]; intros r Hr Hall.
  - exists []. split; [reflexivity | constructor].
  - inversion Hall as [| ? ? Hu Hrest]; subst.
    assert (Hcall : exists r1, relay_call r u = Ret (r1, relay_b r) /\
                               branch r1 = 1%Z /\ relay_b r1 = relay_b r /\
                               relay_c r1 = relay_c r).
    { unfold relay_call. destruct (Rltb (relay_c r) u).
      - exists (set_branch r 1). auto.
      - rewrite Rltb_false by lra. rewrite Hr. cbn [Z.eqb Pos.eqb].
        exists r. auto. }
    destruct Hcall as (r1 & Hcall & Hr1 & Hb1 & Hc1).
    rewrite <- Hc1 in Hrest.
    destruct (IH r1 Hr1 Hrest) as (t & Ht & Hfor).
    exists ((r1, relay_b r) :: t). cbn [relay_trace]. rewrite Hcall. cbn [bind].
    rewrite Ht. cbn [bind]. split; [reflexivity |].
    constructor; [auto |]. rewrite Hb1 in Hfor. exact Hfor.
Qed.

(** While the input stays at or below [c], a relay with [c >= 0] on the
    lower branch stays there and returns [-b]. *)
Lemma relay_trace_stays_down (xs : list R) :
  forall r, branch r = (-1)%Z ->
  Forall (fun u => u <= relay_c r) xs ->
  exists t,
    relay_trace r xs = Ret t /\
    Forall (fun ry : relay_hysteresis_nonlinearity * R =>
              branch (fst ry) = (-1)%Z /\ snd ry = - relay_b r) t.
Proof.
  induction xs as [| u xs IH]; intros r Hr Hall.
  - exists []. split; [reflexivity | constructor].
  - inversion Hall as [| ? ? Hu Hrest]; subst.
    assert (Hcall : exists r1, relay_call r u = Ret (r1, - relay_b r) /\
                               branch r1 = (-1)%Z /\ relay_b r1 = relay_b r /\
                               relay_c r1 = relay_c r).
    { unfold relay_call. rewrite Rltb_false by lra.
      destruct (Rltb u (- relay_c r)).
      - exists (set_branch r (-1)). auto.
      - rewrite Hr. cbn [Z.eqb Pos.eqb]. exists r. auto. }
    destruct Hcall as (r1 & Hcall & Hr1 & Hb1 & Hc1).
    rewrite <- Hc1 in Hrest.
    destruct (IH r1 Hr1 Hrest) as (t & Ht & Hfor).
    exists ((r1, - relay_b r) :: t). cbn [relay_trace]. rewrite Hcall. cbn [bind].
    rewrite Ht. cbn [bind]. split; [reflexivity |].
    constructor; [auto |]. rewrite Hb1 in Hfor. exact Hfor.
Qed.

(** X7: hysteresis.  For a relay with [c >= 0] in any state, an input
    above [c] switches the output to [b], and the output stays [b] for as
    long as the following inputs are at least [-c]; an input below [-c]
    switches it to [-b], where it stays for as long as the following
    inputs are at most [c]. *)
Theorem relay_latches (r : relay_hysteresis_nonlinearity) (x : R) (xs : list R) :
  0 <= relay_c r ->
  (relay_c r < x -> Forall (fun u => - relay_c r <= u) xs ->
   exists t, relay_trace r (x :: xs) = Ret t /\
             List.length t = S (List.length xs) /\
             Forall (fun ry => snd ry = relay_b r) t) /\
  (x < - relay_c r -> Forall (fun u => u <= relay_c r) xs ->
   exists t, relay_trace r (x :: xs) = Ret t /\
             List.length t = S (List.length xs) /\
             Forall (fun ry => snd ry = - relay_b r) t).
Proof.
  intros Hc. split; intros Hx Hall.
  - destruct (relay_trace_stays_up xs (set_branch r 1) eq_refl Hall) as (t & Ht & Hfor).
    exists ((set_branch r 1, relay_b r) :: t).
    cbn [relay_trace]. unfold relay_call. rewrite Rltb_true by lra. cbn [bind].
    rewrite Ht. cbn [bind]. split; [reflexivity |]. split.
    + cbn [List.length]. f_equal.
      clear - Ht. revert t Ht. generalize (set_branch r 1).
      induction xs as [| u xs IH]; intros r0 t Ht; cbn [relay_trace] in Ht.
      * now injection Ht as <-.
      * destruct (relay_call r0 u) as [[r1 y] | |]; try discriminate. cbn [bind] in Ht.
        destruct (relay_trace r1 xs) as [t1 | |] eqn:Ht1; try discriminate.
        cbn [bind] in Ht. injection Ht as <-. cbn [List.length]. f_equal.
        now apply (IH r1).
    + constructor; [reflexivity |].
      eapply Forall_impl; [| exact Hfor]. intros ry [_ Hy]. exact Hy.
  - destruct (relay_trace_stays_down xs (set_branch r (-1)) eq_refl Hall)
      as (t & Ht & Hfor).
    exists ((set_branch r (-1), - relay_b r) :: t).
    cbn [relay_trace]. unfold relay_call.
    rewrite Rltb_false by lra. rewrite Rltb_true by lra. cbn [bind].
    rewrite Ht. cbn [bind]. split; [reflexivity |]. split.
    + cbn [List.length]. f_equal.
      clear - Ht. revert t Ht. generalize (set_branch r (-1)).
      induction xs as [| u xs IH]; intros r0 t Ht; cbn [relay_trace] in Ht.
      * now injection Ht as <-.
      * destruct (relay_call r0 u) as [[r1 y] | |]; try discriminate. cbn [bind] in Ht.
        destruct (relay_trace r1 xs) as [t1 | |] eqn:Ht1; try discriminate.
        cbn [bind] in Ht. injection Ht as <-. cbn [List.length]. f_equal.
        now apply (IH r1).
    + constructor; [reflexivity |].
      eapply Forall_impl; [| exact Hfor]. intros ry [_ Hy]. exact Hy.
Qed.

Lemma relay_latches_witness :
  exists t, relay_trace (relay_init 1 (1 / 2)) [1; 0; - (1 / 4); 1 / 3] = Ret t /\
            List.length t = 4%nat /\
            Forall (fun ry => snd ry = 1) t.
Proof.
  destruct (relay_latches (relay_init 1 (1 / 2)) 1 [0; - (1 / 4); 1 / 3]) as [Hup _].
  - simpl. lra.
  - apply Hup.
    + simpl. lra.
    + repeat constructor; simpl; lra.
Defined.

(** X8: for [b > 0] and an amplitude [a >= c > 0], the closed form of the
    relay has a non-negative real part and the magnitude [4 b / (pi a)]
    of the relay without hysteresis; at [a = c] it is purely imaginary. *)
Theorem relay_describing_function_magnitude (z : Z) (b c a : R) :
  0 < b -> 0 < c -> c <= a ->
  exists x y,
    relay_describing_function (mkRelay z b c) a = Ret (PyComplex (mkC x y)) /\
    x * x + y * y = (4 * b / (PI * a)) ^ 2 /\
    0 <= x /\ (a = c -> x = 0).
Proof.
  intros Hb Hc Hle. assert (Hpi := PI_RGT_0).
  destruct (relay_describing_function_cases z b c a Hb Hc) as (_ & Hge).
  destruct (Hge Hle) as (Hval & _).
  assert (Hq : 0 < c / a <= 1).
  { split.
    - apply Rdiv_lt_0_compat; lra.
    - apply Rmult_le_reg_r with a; [lra |]. field_simplify; lra. }
  assert (Hrad : 0 <= 1 - (c / a) ^ 2) by nra.
  pose proof (sqrt_sqrt _ Hrad) as Hss.
  pose proof (sqrt_pos (1 - (c / a) ^ 2)) as Hs0.
  set (s := sqrt (1 - (c / a) ^ 2)) in *.
  eexists _, _. split; [exact Hval |]. split; [| split].
  - replace (4 * b * s / (a * PI) * (4 * b * s / (a * PI)))
      with ((4 * b / (PI * a)) ^ 2 * (s * s)) by (field; lra).
    rewrite Hss. field. lra.
  - apply Rmult_le_pos; [apply Rmult_le_pos; lra |].
    left. apply Rinv_0_lt_compat. nra.
  - intros Heq. subst a.
    assert (Hz : s * s = 0) by (rewrite Hss; field; lra).
    assert (s = 0) by nra. subst s. rewrite H. field. lra.
Qed.

Lemma relay_describing_function_magnitude_witness :
  exists x y,
    relay_describing_function (mkRelay (-1) 1 (1 / 2)) 1 = Ret (PyComplex (mkC x y)) /\
    x * x + y * y = (4 * 1 / (PI * 1)) ^ 2 /\
    0 <= x /\ (1 = 1 / 2 -> x = 0).
Proof. apply (relay_describing_function_magnitude (-1) 1 (1 / 2) 1); lra. Defined.

(** ** backlash_nonlinearity *)

(** X9: for a backlash with [b >= 0], a sample within [b/2] of the center
    leaves the object as it is and returns the center; a sample further
    away moves the center by exactly the excess over [b/2], towards the
    sample; and repeating a sample changes nothing the second time. *)
Theorem backlash_call_play (bl : backlash_nonlinearity) (x : R) :
  0 <= backlash_b bl ->
  (Rabs (x - center bl) <= backlash_b bl / 2 ->
   backlash_call bl (Scalar x) = Ret (bl, Scalar (center bl))) /\
  (backlash_b bl / 2 < x - center bl ->
   exists bl',
     backlash_call bl (Scalar x) = Ret (bl', Scalar (center bl')) /\
     center bl' - center bl = (x - center bl) - backlash_b bl / 2) /\
  (x - center bl < - (backlash_b bl / 2) ->
   exists bl',
     backlash_call bl (Scalar x) = Ret (bl', Scalar (center bl')) /\
     center bl' - center bl = (x - center bl) + backlash_b bl / 2) /\
  (forall bl' y,
     backlash_call bl (Scalar x) = Ret (bl', y) ->
     backlash_call bl' (Scalar x) = Ret (bl', y)).
Proof.
  intros Hb. destruct bl as [b c]. cbn [backlash_b center] in *.
  rewrite backlash_call_scalar. unfold backlash_step; cbn [backlash_b center fst snd].
  repeat split.
  - intros Habs. apply Rabs_le_bounds in Habs. rcmp. reflexivity.
  - intros Hhi. rcmp. exists (mkBacklash b (x - b / 2)).
    split; [reflexivity |]. cbn [center]. lra.
  - intros Hlo. rcmp. exists (mkBacklash b (x + b / 2)).
    split; [reflexivity |]. cbn [center]. lra.
  - intros bl' y Heq. injection Heq as <- <-.
    rewrite backlash_call_scalar. unfold backlash_step; cbn [backlash_b center fst snd].
    destruct (Rltb_spec (b / 2) (x - c)).
    + rcmp. reflexivity.
    + destruct (Rltb_spec (x - c) (- b / 2)); rcmp; reflexivity.
Qed.

Lemma backlash_call_play_witness :
  backlash_call (backlash_init 2) (Scalar (1 / 2))
  = Ret (backlash_init 2, Scalar (center (backlash_init 2))) /\
  (exists bl',
     backlash_call (backlash_init 2) (Scalar 3) = Ret (bl', Scalar (center bl')) /\
     center bl' - center (backlash_init 2)
     = (3 - center (backlash_init 2)) - backlash_b (backlash_init 2) / 2).
Proof.
  assert (Hb : 0 <= backlash_b (backlash_init 2)) by (simpl; lra).
  split.
  - destruct (backlash_call_play (backlash_init 2) (1 / 2) Hb) as (Hhold & _).
    apply Hhold. simpl. apply Rabs_le. lra.
  - destruct (backlash_call_play (backlash_init 2) 3 Hb) as (_ & Hmove & _).
    apply Hmove. simpl. lra.
Defined.

(** X10: a backlash of width 0 is the identity: every call returns its
    input and leaves the center there. *)
Theorem backlash_zero_width (c x : R) :
  backlash_call (mkBacklash 0 c) (Scalar x) = Ret (mkBacklash 0 x, Scalar x).
Proof.
  rewrite backlash_call_scalar. unfold backlash_step; cbn [backlash_b center fst snd].
  replace (0 / 2) with 0 by field. replace (- 0 / 2) with 0 by field.
  destruct (Rltb_spec 0 (x - c)).
  - do 3 f_equal; ring.
  - destruct (Rltb_spec (x - c) 0).
    + do 3 f_equal; ring.
    + assert (c = x) by lra. subst c. reflexivity.
Qed.

Lemma f_spec_open (z : R) : -1 < z < 1 -> -1 < f_spec z < 1.
Proof.
  intros Hz. destruct (Rlt_dec 0 z) as [Hpos | Hnpos].
  - destruct (f_spec_unit_interval z) as (_ & Hin & _); [lra |].
    specialize (Hin ltac:(lra)). lra.
  - destruct (Req_dec z 0) as [H0 | H0].
    + subst z. destruct (f_spec_unit_interval 0) as (Hb & _ & _); [lra |].
      pose proof (f_spec_odd 0) as Hodd. rewrite Ropp_0 in Hodd. lra.
    + destruct (f_spec_unit_interval (- z)) as (_ & Hin & _); [lra |].
      rewrite f_spec_odd in Hin. specialize (Hin ltac:(lra)). lra.
Qed.

(** X11: for a backlash with [b > 0] and an amplitude [A > b/2], the
    closed form is a complex number with real part strictly between 0
    and 1 and a strictly negative imaginary part (a phase lag). *)
Theorem backlash_describing_function_lag (b c A : R) :
  0 < b -> b / 2 < A ->
  exists x y,
    backlash_describing_function (mkBacklash b c) A = Ret (PyComplex (mkC x y)) /\
    0 < x < 1 /\ y < 0.
Proof.
  intros Hb HA. assert (Hpi := PI_RGT_0).
  assert (Hq : 0 < b / A < 2).
  { split.
    - apply Rdiv_lt_0_compat; lra.
    - apply Rmult_lt_reg_r with A; [lra |]. field_simplify; lra. }
  unfold backlash_describing_function; cbn [backlash_b].
  rewrite Rleb_false by lra. rewrite !pydiv_ok by lra. cbn [bind].
  rewrite _f_refines_f_spec. cbn [bind]. rewrite real_plus_j_eq.
  eexists _, _. split; [reflexivity |].
  pose proof (f_spec_open (1 - b / A) ltac:(lra)) as Hf.
  split; [lra |].
  replace (2 * b / A) with (2 * (b / A)) by (field; lra).
  assert (Hnum : 0 < 2 * (b / A) - (b / A) ^ 2) by nra.
  apply Ropp_lt_cancel. rewrite Ropp_0.
  replace (- (- (2 * (b / A) - (b / A) ^ 2) / PI))
    with ((2 * (b / A) - (b / A) ^ 2) / PI) by (field; lra).
  apply Rdiv_lt_0_compat; assumption.
Qed.

Lemma backlash_describing_function_lag_witness :
  exists x y,
    backlash_describing_function (mkBacklash 2 0) 4 = Ret (PyComplex (mkC x y)) /\
    0 < x < 1 /\ y < 0.
Proof. apply (backlash_describing_function_lag 2 0 4); lra. Defined.

(** ** describing_function: shapes, sample counts and empty input *)

Lemma mapM_length {A B : Type} (f : A -> outcome B) (l : list A) :
  forall l', mapM f l = Ret l' -> List.length l' = List.length l.
Proof.
  induction l as [| a l IH]; intros l' Heq; cbn [mapM] in Heq.
  - now injection Heq as <-.
  - destruct (f a) as [b | |]; try discriminate. cbn [bind] in Heq.
    destruct (mapM f l) as [bs | |]; try discriminate. cbn [bind] in Heq.
    injection Heq as <-. cbn [List.length]. f_equal. now apply IH.
Qed.

(** Reshaping a list of the length of the argument never fails. *)
Lemma reshape_like_ok {A B : Type} (x : shaped A) (l : list B) :
  List.length l = List.length (atleast_1d x) ->
  exists v, reshape_like x l = Ret v /\ same_shape x v /\ atleast_1d v = l.
Proof.
  destruct x as [a | xs]; cbn [atleast_1d List.length reshape_like]; intros Hlen.
  - destruct l as [| b [| b' l]]; try discriminate.
    exists (Scalar b). repeat split.
  - rewrite <- Hlen, Nat.eqb_refl. exists (Array l). repeat split. exact Hlen.
Qed.

(** X12: when the closed form is used and gives a value for every
    amplitude, [describing_function] returns these values in the order
    and in the shape of [amp] and leaves the object as it was; when the
    closed form raises for one amplitude, the call raises the same. *)
Theorem describing_function_method_shape (F : fcn) (method : R -> outcome pyval)
  (amp : shaped R) (n : Z) (zero_check : bool) :
  fcn_method F = Some method ->
  (forall df, mapM method (atleast_1d amp) = Ret df ->
     exists v,
       describing_function F amp n zero_check true = Ret (F, v) /\
       same_shape amp v /\ atleast_1d v = df) /\
  (forall e, mapM method (atleast_1d amp) = Raise e ->
     describing_function F amp n zero_check true = Raise e).
Proof.
  intros Hm. unfold describing_function. rewrite Hm. split.
  - intros df Hdf. rewrite Hdf. cbn [bind].
    destruct (reshape_like_ok amp df (mapM_length _ _ _ Hdf)) as (v & Hv & Hshape & Hflat).
    rewrite Hv. cbn [bind]. exists v. auto.
  - intros e He. rewrite He. reflexivity.
Qed.

Lemma describing_function_method_shape_witness :
  exists v,
    describing_function (Saturation (mkSaturation (-1) 1)) (Array [0; 1 / 2; 1]) 100 true true
    = Ret (Saturation (mkSaturation (-1) 1), v) /\
    same_shape (Array [0; 1 / 2; 1]) v /\
    atleast_1d v = [PyFloat 1; PyFloat 1; PyFloat 1].
Proof.
  destruct (describing_function_method_shape (Saturation (mkSaturation (-1) 1))
              (saturation_describing_function (mkSaturation (-1) 1))
              (Array [0; 1 / 2; 1]) 100 true eq_refl) as (Hret & _).
  apply Hret. cbn [atleast_1d mapM]. unfold saturation_describing_function.
  cbn [sat_lb sat_ub]. rcmp. reflexivity.
Defined.

Lemma linspace_grid (n : Z) :
  (2 <= n)%Z -> linspace 0 (2 * PI) n = Ret (theta_grid n).
Proof.
  intros Hn. unfold linspace.
  destruct (Z.ltb_spec n 0) as [Hneg | _]; [lia |].
  destruct (Z.eqb_spec n 1) as [H1 | _]; [lia |]. reflexivity.
Qed.

(** X13: the numerical branch needs two sample points: a negative
    [num_points] is refused by [np.linspace] with a ValueError, and with
    0 or 1 points [theta[1]] is an IndexError, whatever the nonlinearity
    and the amplitudes. *)
Theorem describing_function_too_few_points (F : fcn) (amp : shaped R)
  (n : Z) (zero_check try_method : bool) :
  numerical_branch F try_method ->
  ((n < 0)%Z ->
   describing_function F amp n zero_check try_method
   = Raise (ValueError "Number of samples must be non-negative")) /\
  ((0 <= n < 2)%Z ->
   describing_function F amp n zero_check try_method = Raise IndexError).
Proof.
  intros Hnum. unfold describing_function. rewrite Hnum. unfold linspace. split.
  - intros Hn. destruct (Z.ltb_spec n 0); [reflexivity | lia].
  - intros Hn. destruct (Z.ltb_spec n 0); [lia |].
    assert (Hcases : n = 0%Z \/ n = 1%Z) by lia.
    destruct Hcases; subst n; reflexivity.
Qed.

Lemma describing_function_too_few_points_witness :
  describing_function (Callable (fun x => x)) (Scalar 1) (-3) true true
  = Raise (ValueError "Number of samples must be non-negative") /\
  describing_function (Callable (fun x => x)) (Scalar 1) 1 true true = Raise IndexError /\
  describing_function (Backlash (backlash_init 2)) (Scalar 1) 0 true false
  = Raise IndexError.
Proof.
  split; [| split].
  - apply (describing_function_too_few_points (Callable (fun x => x)) (Scalar 1) (-3) true true);
      [reflexivity | lia].
  - apply (describing_function_too_few_points (Callable (fun x => x)) (Scalar 1) 1 true true);
      [reflexivity | lia].
  - apply (describing_function_too_few_points (Backlash (backlash_init 2)) (Scalar 1) 0 true false);
      [reflexivity | lia].
Defined.

(** X14: an empty array of amplitudes.  The closed-form branch returns an
    empty array; the numerical branch (with at least two sample points)
    fails on the minimum of an empty array with a ValueError. *)
Theorem describing_function_no_amplitudes (F : fcn) (n : Z) (zero_check try_method : bool) :
  (fcn_method F <> None ->
   describing_function F (Array []) n zero_check true = Ret (F, Array [])) /\
  (numerical_branch F try_method -> (2 <= n)%Z ->
   describing_function F (Array []) n zero_check try_method
   = Raise (ValueError "zero-size array to reduction operation minimum")).
Proof.
  unfold describing_function. split.
  - intros Hm. destruct (fcn_method F) as [m |]; [reflexivity | contradiction].
  - intros Hnum Hn. rewrite Hnum, linspace_grid by assumption. cbn [bind].
    unfold theta_grid.
    destruct (Z.to_nat n) as [| [| k]] eqn:Hk; [lia | lia |].
    reflexivity.
Qed.

Lemma describing_function_no_amplitudes_witness :
  describing_function (RelayHysteresis (relay_init 1 (1 / 2))) (Array []) 100 true true
  = Ret (RelayHysteresis (relay_init 1 (1 / 2)), Array []) /\
  describing_function (Callable (fun x => x)) (Array []) 100 true true
  = Raise (ValueError "zero-size array to reduction operation minimum").
Proof.
  split.
  - apply (describing_function_no_amplitudes
             (RelayHysteresis (relay_init 1 (1 / 2))) 100 true true). discriminate.
  - apply (describing_function_no_amplitudes (Callable (fun x => x)) 100 true true);
      [reflexivity | lia].
Defined.

(** ** describing_function: the numerical branch on every nonlinearity *)

Lemma describing_function_numerical (F : fcn) (amp : shaped R) (n : Z)
  (zero_check try_method : bool) :
  numerical_branch F try_method -> (2 <= n)%Z ->
  describing_function F amp n zero_check try_method
  = numerical_estimate F amp n zero_check.
Proof.
  intros Hnum Hn. unfold describing_function, numerical_estimate.
  rewrite Hnum, linspace_grid by assumption. cbn [bind].
  unfold theta_grid at 1 2, dtheta_grid.
  destruct (Z.to_nat n) as [| [| k]] eqn:Hk; [lia | lia |].
  reflexivity.
Qed.

Lemma fcn_call_ok (F : fcn) (x : R) :
  fcn_ok F -> exists F' y, fcn_call F x = Ret (F', y) /\ fcn_ok F'.
Proof.
  intros Hok. destruct F as [f | s | r | bl]; cbn [fcn_call].
  - eauto.
  - eauto.
  - destruct (relay_call_step r x Hok) as (r' & y & Hcall & Hr' & _).
    rewrite Hcall. cbn [bind]. exists (RelayHysteresis r'), y. auto.
  - rewrite backlash_call_scalar. cbn [bind squeeze].
    eexists _, _. split; [reflexivity | exact I].
Qed.

Lemma fcn_calls_ok (xs : list R) :
  forall F, fcn_ok F -> exists F' ys, fcn_calls F xs = Ret (F', ys) /\ fcn_ok F'.
Proof.
  induction xs as [| x xs IH]; intros F Hok; cbn [fcn_calls].
  - eauto.
  - destruct (fcn_call_ok F x Hok) as (F1 & y & Hcall & Hok1).
    destruct (IH F1 Hok1) as (F2 & ys & Hcalls & Hok2).
    rewrite Hcall. cbn [bind]. rewrite Hcalls. cbn [bind]. eauto.
Qed.

(** The loop over the amplitudes returns only when none is negative. *)
Lemma df_loop_nonneg (zero_check : bool) (sin_theta cos_theta : list R) (dtheta : R)
  (amps : list R) :
  forall F F' df,
    df_loop zero_check sin_theta cos_theta dtheta F amps = Ret (F', df) ->
    Forall (fun a => 0 <= a) amps.
Proof.
  induction amps as [| a amps IH]; intros F F' df Heq; [constructor |].
  cbn [df_loop] in Heq.
  destruct (Reqb_spec a 0) as [H0 | H0].
  - destruct (if zero_check
              then '(F1, y) <- fcn_call F 0 ;; Ret (F1, negb (Reqb y 0))
              else Ret (F, false)) as [[F1 nz] | |]; try discriminate.
    cbn [bind] in Heq. destruct nz; try discriminate.
    destruct (df_loop zero_check sin_theta cos_theta dtheta F1 amps)
      as [[F2 df2] | |] eqn:Hrest; try discriminate.
    constructor; [lra | eapply IH; eassumption].
  - destruct (Rltb_spec a 0) as [Hneg | Hge]; try discriminate.
    destruct (fcn_calls F (map (Rmult a) sin_theta)) as [[F1 ev] | |]; try discriminate.
    cbn [bind] in Heq.
    destruct (df_loop zero_check sin_theta cos_theta dtheta F1 amps)
      as [[F2 df2] | |] eqn:Hrest; try discriminate.
    constructor; [lra | eapply IH; eassumption].
Qed.

(** X15: the numerical branch never returns a value when one of the
    amplitudes is negative; for one negative amplitude, at least two
    sample points and any of the four kinds of nonlinearity (a relay on
    one of its branches), it raises the ValueError for [amp < 0]. *)
Theorem describing_function_numerical_negative (F : fcn) (n : Z)
  (zero_check try_method : bool) :
  numerical_branch F try_method ->
  (forall amp F' v,
     describing_function F amp n zero_check try_method = Ret (F', v) ->
     Forall (fun a => 0 <= a) (atleast_1d amp)) /\
  (forall a, fcn_ok F -> (2 <= n)%Z -> a < 0 ->
     describing_function F (Scalar a) n zero_check try_method = Raise negative_error).
Proof.
  intros Hnum. split.
  - intros amp F' v. unfold describing_function. rewrite Hnum.
    destruct (linspace 0 (2 * PI) n) as [theta | |]; try discriminate. cbn [bind].
    destruct (getitem theta 1) as [t1 | |]; try discriminate. cbn [bind].
    destruct (getitem theta 0) as [t0 | |]; try discriminate. cbn [bind].
    destruct (array_min (atleast_1d amp)) as [amin | |]; try discriminate. cbn [bind].
    destruct (fcn_calls F (map (Rmult amin) (map sin theta))) as [[F0 ev] | |];
      try discriminate. cbn [bind].
    destruct (df_loop zero_check (map sin theta) (map cos theta) (t1 - t0) F0
                (atleast_1d amp)) as [[F1 df] | |] eqn:Hloop; try discriminate.
    intros _. eapply df_loop_nonneg. exact Hloop.
  - intros a Hok Hn Ha.
    rewrite describing_function_numerical by assumption.
    unfold numerical_estimate. cbn [atleast_1d array_min fold_left bind].
    destruct (fcn_calls_ok (map (Rmult a) (map sin (theta_grid n))) F Hok)
      as (F0 & ys & Hsettle & _).
    rewrite Hsettle. cbn [bind df_loop]. rcmp. reflexivity.
Qed.

Lemma describing_function_numerical_negative_witness :
  describing_function (Saturation (mkSaturation (-1) 1)) (Scalar (-1)) 100 true false
  = Raise negative_error /\
  describing_function (RelayHysteresis (relay_init 1 (1 / 2))) (Scalar (-1)) 100 true false
  = Raise negative_error /\
  describing_function (Backlash (backlash_init 2)) (Scalar (-1)) 100 true false
  = Raise negative_error.
Proof.
  split; [| split].
  - apply (describing_function_numerical_negative
             (Saturation (mkSaturation (-1) 1)) 100 true false eq_refl);
      [exact I | lia | lra].
  - apply (describing_function_numerical_negative
             (RelayHysteresis (relay_init 1 (1 / 2))) 100 true false eq_refl);
      [right; reflexivity | lia | lra].
  - apply (describing_function_numerical_negative
             (Backlash (backlash_init 2)) 100 true false eq_refl);
      [exact I | lia | lra].
Defined.

(** Samples within the play of a backlash leave it where it is. *)
Lemma fcn_calls_backlash_hold (bl : backlash_nonlinearity) (xs : list R) :
  0 <= backlash_b bl ->
  Forall (fun x => Rabs (x - center bl) <= backlash_b bl / 2) xs ->
  fcn_calls (Backlash bl) xs = Ret (Backlash bl, map (fun _ => center bl) xs).
Proof.
  intros Hb Hall. induction Hall as [| x xs Hx _ IH]; [reflexivity |].
  cbn [fcn_calls fcn_call]. rewrite backlash_call_scalar.
  assert (Hstep : backlash_step bl x = (bl, center bl)).
  { apply Rabs_le_bounds in Hx. destruct bl as [b c].
    unfold backlash_step; cbn [backlash_b center] in *. rcmp. reflexivity. }
  rewrite Hstep. cbn [fst snd bind squeeze]. rewrite IH. reflexivity.
Qed.

Lemma all_zero_samples (l : list R) :
  Forall (fun x => x = 0) (map (Rmult 0) l).
Proof. induction l; constructor; [ring | assumption]. Qed.

(** X16: the numerical branch at amplitude 0 (at least two sample
    points).  With [zero_check=False] every nonlinearity gets 1.0, also
    one that is not zero at zero.  With [zero_check=True] a backlash with
    [b >= 0] whose center is at 0 gets 1.0 (where the closed form gives
    0), and a relay with [b <> 0] is refused with the validation error,
    its value at zero being [b] or [-b]. *)
Theorem describing_function_numerical_zero (n : Z) :
  (2 <= n)%Z ->
  (forall F try_method,
     numerical_branch F try_method -> fcn_ok F ->
     exists F0,
       describing_function F (Scalar 0) n false try_method
       = Ret (F0, Scalar (PyFloat 1))) /\
  (forall b, 0 <= b ->
     describing_function (Backlash (mkBacklash b 0)) (Scalar 0) n true false
     = Ret (Backlash (mkBacklash b 0), Scalar (PyFloat 1))) /\
  (forall r, branch_ok r -> relay_b r <> 0 ->
     describing_function (RelayHysteresis r) (Scalar 0) n true false
     = Raise zero_error).
Proof.
  intros Hn. split; [| split].
  - intros F tm Hnum Hok.
    rewrite describing_function_numerical by assumption.
    unfold numerical_estimate. cbn [atleast_1d array_min fold_left bind].
    destruct (fcn_calls_ok (map (Rmult 0) (map sin (theta_grid n))) F Hok)
      as (F0 & ys & Hsettle & _).
    rewrite Hsettle. cbn [bind df_loop]. rewrite (Reqb_true 0 0) by reflexivity.
    cbn [bind reshape_like]. eauto.
  - intros b Hb.
    rewrite describing_function_numerical by (assumption || reflexivity).
    unfold numerical_estimate. cbn [atleast_1d array_min fold_left bind].
    assert (Hband : forall l, Forall (fun x => Rabs (x - center (mkBacklash b 0))
                                               <= backlash_b (mkBacklash b 0) / 2)
                                     (map (Rmult 0) l)).
    { intros l. eapply Forall_impl; [| apply all_zero_samples].
      intros x ->. cbn [center backlash_b]. apply Rabs_le. lra. }
    rewrite fcn_calls_backlash_hold by (cbn [backlash_b]; auto).
    cbn [bind df_loop]. rewrite (Reqb_true 0 0) by reflexivity.
    pose proof (fcn_calls_backlash_hold (mkBacklash b 0) [0] Hb) as Hone.
    cbn [fcn_calls fcn_call] in Hone |- *.
    rewrite backlash_call_scalar in *.
    assert (Hstep : backlash_step (mkBacklash b 0) 0 = (mkBacklash b 0, 0)).
    { unfold backlash_step; cbn [backlash_b center]. rcmp. reflexivity. }
    rewrite Hstep. cbn [fst snd bind squeeze].
    rewrite (Reqb_true 0 0) by reflexivity. reflexivity.
  - intros r Hr Hb.
    rewrite describing_function_numerical by (assumption || reflexivity).
    unfold numerical_estimate. cbn [atleast_1d array_min fold_left bind].
    destruct (fcn_calls_ok (map (Rmult 0) (map sin (theta_grid n)))
                (RelayHysteresis r) Hr) as (F0 & ys & Hsettle & Hok0).
    rewrite Hsettle. cbn [bind df_loop]. rewrite (Reqb_true 0 0) by reflexivity.
    assert (Hkeep : exists r0, F0 = RelayHysteresis r0 /\ branch_ok r0 /\
                               relay_b r0 = relay_b r).
    { clear - Hsettle Hr. revert r F0 ys Hr Hsettle.
      induction (map (Rmult 0) (map sin (theta_grid n))) as [| x xs IH];
        intros r F0 ys Hr Hsettle; cbn [fcn_calls] in Hsettle.
      - injection Hsettle as <- _. eauto.
      - cbn [fcn_call] in Hsettle.
        destruct (relay_call_step r x Hr) as (r1 & y & Hcall & Hr1 & Hb1 & _).
        rewrite Hcall in Hsettle. cbn [bind] in Hsettle.
        destruct (fcn_calls (RelayHysteresis r1) xs) as [[F2 ys2] | |] eqn:Hrest;
          try discriminate.
        cbn [bind] in Hsettle. injection Hsettle as <- _.
        destruct (IH r1 F2 ys2 Hr1 Hrest) as (r0 & -> & Hr0 & Hb0).
        exists r0. rewrite Hb0, Hb1. auto. }
    destruct Hkeep as (r0 & -> & Hr0 & Hb0).
    cbn [fcn_call].
    destruct (relay_call_step r0 0 Hr0) as (r1 & y & Hcall & Hr1 & Hb1 & _ & Hy).
    rewrite Hcall. cbn [bind].
    rewrite Reqb_false; [reflexivity |].
    rewrite Hy, Hb1, Hb0. destruct Hr1 as [Hz | Hz]; rewrite Hz; cbn [IZR]; lra.
Qed.

Lemma describing_function_numerical_zero_witness :
  (exists F0,
     describing_function (Callable (fun x => x + 1 / 2)) (Scalar 0) 100 false true
     = Ret (F0, Scalar (PyFloat 1))) /\
  describing_function (Backlash (mkBacklash 2 0)) (Scalar 0) 100 true false
  = Ret (Backlash (mkBacklash 2 0), Scalar (PyFloat 1)) /\
  describing_function (RelayHysteresis (relay_init 1 (1 / 2))) (Scalar 0) 100 true false
  = Raise zero_error.
Proof.
  assert (Hn : (2 <= 100)%Z) by lia.
  destruct (describing_function_numerical_zero 100 Hn) as (Hoff & Hbl & Hrel).
  split; [| split].
  - apply Hoff; [reflexivity | exact I].
  - apply Hbl. lra.
  - apply Hrel; [right; reflexivity | simpl; lra].
Defined.

(** ** describing_function: the projection on a plain function *)

Lemma dot_map {A : Type} (u v : A -> R) (l : list A) :
  dot (map u l) (map v l) = Rsum (map (fun x => u x * v x) l).
Proof.
  unfold Rsum. induction l as [| x l IH]; [reflexivity |].
  cbn [map dot fold_right]. rewrite IH. reflexivity.
Qed.

Lemma Rsum_app (l1 l2 : list R) : Rsum (l1 ++ l2) = Rsum l1 + Rsum l2.
Proof.
  unfold Rsum. induction l1 as [| x l1 IH]; cbn [app fold_right].
  - ring.
  - rewrite IH. ring.
Qed.

Lemma Rsum_linear {A : Type} (k1 k2 : R) (u v : A -> R) (l : list A) :
  Rsum (map (fun x => k1 * u x + k2 * v x) l)
  = k1 * Rsum (map u l) + k2 * Rsum (map v l).
Proof.
  unfold Rsum. induction l as [| x l IH]; cbn [map fold_right].
  - ring.
  - rewrite IH. ring.
Qed.

(** The value of the numerical branch on a plain function at one
    positive amplitude. *)
Lemma describing_function_callable_positive (f : R -> R) (a : R) (n : Z)
  (zero_check try_method : bool) :
  (2 <= n)%Z -> 0 < a ->
  describing_function (Callable f) (Scalar a) n zero_check try_method
  = Ret (Callable f,
         Scalar (PyComplex
           (mkC (Rsum (map (fun t => f (a * sin t) * sin t) (theta_grid n))
                 * (dtheta_grid n / PI / a))
                (Rsum (map (fun t => f (a * sin t) * cos t) (theta_grid n))
                 * (dtheta_grid n / PI / a))))).
Proof.
  intros Hn Ha.
  rewrite describing_function_numerical
    by (assumption || apply callable_has_no_method).
  unfold numerical_estimate. cbn [atleast_1d array_min fold_left bind].
  rewrite fcn_calls_callable. cbn [bind df_loop]. rcmp.
  rewrite fcn_calls_callable. cbn [bind reshape_like].
  rewrite real_plus_j_eq, !map_map.
  rewrite (dot_map (fun t => f (a * sin t)) sin).
  rewrite (dot_map (fun t => f (a * sin t)) cos). reflexivity.
Qed.

(** X17: on plain functions the numerical estimate is linear in the
    function: at a positive amplitude, the estimate for
    [k1 f(x) + k2 g(x)] is [k1] times the estimate for [f] plus [k2]
    times the estimate for [g], in the real and in the imaginary part. *)
Theorem describing_function_linear (f g : R -> R) (k1 k2 a : R) (n : Z)
  (zero_check try_method : bool) :
  (2 <= n)%Z -> 0 < a ->
  exists xf yf xg yg,
    describing_function (Callable f) (Scalar a) n zero_check try_method
    = Ret (Callable f, Scalar (PyComplex (mkC xf yf))) /\
    describing_function (Callable g) (Scalar a) n zero_check try_method
    = Ret (Callable g, Scalar (PyComplex (mkC xg yg))) /\
    describing_function (Callable (fun x => k1 * f x + k2 * g x)) (Scalar a) n
      zero_check try_method
    = Ret (Callable (fun x => k1 * f x + k2 * g x),
           Scalar (PyComplex (mkC (k1 * xf + k2 * xg) (k1 * yf + k2 * yg)))).
Proof.
  intros Hn Ha. rewrite !describing_function_callable_positive by assumption.
  eexists _, _, _, _. split; [reflexivity |]. split; [reflexivity |].
  do 5 f_equal.
  - rewrite (map_ext _ (fun t => k1 * (f (a * sin t) * sin t)
                                 + k2 * (g (a * sin t) * sin t)))
      by (intros t; ring).
    rewrite Rsum_linear. ring.
  - rewrite (map_ext _ (fun t => k1 * (f (a * sin t) * cos t)
                                 + k2 * (g (a * sin t) * cos t)))
      by (intros t; ring).
    rewrite Rsum_linear. ring.
Qed.

Lemma describing_function_linear_witness :
  exists xf yf xg yg,
    describing_function (Callable (fun x => x * x * x)) (Scalar 2) 100 true true
    = Ret (Callable (fun x => x * x * x), Scalar (PyComplex (mkC xf yf))) /\
    describing_function (Callable (fun x => Rmax (-1) (Rmin x 1))) (Scalar 2) 100 true true
    = Ret (Callable (fun x => Rmax (-1) (Rmin x 1)), Scalar (PyComplex (mkC xg yg))) /\
    describing_function
      (Callable (fun x => 3 * (x * x * x) + 2 * Rmax (-1) (Rmin x 1))) (Scalar 2) 100
      true true
    = Ret (Callable (fun x => 3 * (x * x * x) + 2 * Rmax (-1) (Rmin x 1)),
           Scalar (PyComplex (mkC (3 * xf + 2 * xg) (3 * yf + 2 * yg)))).
Proof.
  apply (describing_function_linear (fun x => x * x * x) (fun x => Rmax (-1) (Rmin x 1))
           3 2 2 100 true true); [lia | lra].
Defined.

(** *** The projection is exact on a linear gain *)

Lemma cos_sum_telescope (h : R) (m : nat) :
  2 * sin h * Rsum (map (fun k => cos (2 * (INR k * h))) (seq 0 m))
  = sin ((2 * INR m - 1) * h) + sin h.
Proof.
  induction m as [| m IH].
  - cbn [seq map Rsum fold_right INR].
    replace ((2 * 0 - 1) * h) with (- h) by ring. rewrite sin_neg. ring.
  - rewrite seq_S, map_app, Rsum_app, Rmult_plus_distr_l, IH.
    cbn [Nat.add map Rsum fold_right]. rewrite S_INR.
    replace ((2 * (INR m + 1) - 1) * h) with (2 * (INR m * h) + h) by ring.
    replace ((2 * INR m - 1) * h) with (2 * (INR m * h) - h) by ring.
    rewrite sin_plus, sin_minus. ring.
Qed.

Lemma sin_sum_telescope (h : R) (m : nat) :
  2 * sin h * Rsum (map (fun k => sin (2 * (INR k * h))) (seq 0 m))
  = cos h - cos ((2 * INR m - 1) * h).
Proof.
  induction m as [| m IH].
  - cbn [seq map Rsum fold_right INR].
    replace ((2 * 0 - 1) * h) with (- h) by ring. rewrite cos_neg. ring.
  - rewrite seq_S, map_app, Rsum_app, Rmult_plus_distr_l, IH.
    cbn [Nat.add map Rsum fold_right]. rewrite S_INR.
    replace ((2 * (INR m + 1) - 1) * h) with (2 * (INR m * h) + h) by ring.
    replace ((2 * INR m - 1) * h) with (2 * (INR m * h) - h) by ring.
    rewrite cos_plus, cos_minus. ring.
Qed.

(** Over a full period cut into [N >= 3] equal steps, both end points
    included, the doubled angles have cosines that sum to 1 and sines
    that sum to 0. *)
Lemma full_period_sums (N : nat) (h : R) :
  (3 <= N)%nat -> INR N * h = 2 * PI ->
  Rsum (map (fun k => cos (2 * (INR k * h))) (seq 0 (S N))) = 1 /\
  Rsum (map (fun k => sin (2 * (INR k * h))) (seq 0 (S N))) = 0.
Proof.
  intros HN Hh. assert (Hpi := PI_RGT_0).
  assert (HN3 : 3 <= INR N) by (apply le_INR in HN; simpl in HN; lra).
  assert (Hh0 : 0 < h < PI) by nra.
  assert (Hs : 0 < sin h) by (apply sin_gt_0; lra).
  assert (Hang : (2 * INR (S N) - 1) * h = h + 2 * INR 2 * PI).
  { rewrite S_INR. simpl (INR 2). nra. }
  pose proof (cos_sum_telescope h (S N)) as Hc.
  pose proof (sin_sum_telescope h (S N)) as Hsn.
  rewrite Hang, sin_period in Hc. rewrite Hang, cos_period in Hsn.
  split; nra.
Qed.

Lemma Rsum_const {A : Type} (c : R) (l : list A) :
  Rsum (map (fun _ => c) l) = INR (List.length l) * c.
Proof.
  unfold Rsum. induction l as [| x l IH].
  - cbn [map fold_right List.length INR]. ring.
  - cbn [map fold_right]. rewrite IH.
    change (List.length (x :: l)) with (S (List.length l)). rewrite S_INR. ring.
Qed.

(** The sample angles are the multiples of the step. *)
Lemma theta_grid_steps (n : Z) :
  theta_grid n
  = map (fun k => INR k * (2 * PI / (IZR n - 1))) (seq 0 (Z.to_nat n)).
Proof.
  unfold theta_grid. apply map_ext. intros k.
  replace (2 * PI - 0) with (2 * PI) by ring. ring.
Qed.

(** The estimate of a linear gain, by the sums over the full period. *)
Lemma linear_gain_estimate (k a : R) (n : Z)
  (zero_check try_method : bool) :
  (4 <= n)%Z -> 0 < a ->
  describing_function (Callable (fun x => k * x)) (Scalar a) n zero_check try_method
  = Ret (Callable (fun x => k * x), Scalar (PyComplex (mkC k 0))).
Proof.
  intros Hn Ha. assert (Hpi := PI_RGT_0).
  rewrite describing_function_callable_positive by (lia || assumption).
  set (h := 2 * PI / (IZR n - 1)).
  assert (Hm : Z.to_nat n = S (Z.to_nat n - 1)) by lia.
  set (N := (Z.to_nat n - 1)%nat) in *.
  assert (HN : (3 <= N)%nat) by lia.
  assert (HNR : INR N = IZR n - 1).
  { unfold N. rewrite minus_INR by lia. rewrite INR_IZR_INZ, Z2Nat.id by lia.
    simpl. ring. }
  assert (HNpos : 3 <= INR N) by (apply le_INR in HN; simpl in HN; lra).
  assert (Hh : INR N * h = 2 * PI) by (unfold h; rewrite <- HNR; field; lra).
  destruct (full_period_sums N h HN Hh) as (Hcos & Hsin).
  assert (Hdt : dtheta_grid n = h).
  { unfold dtheta_grid, h. simpl (INR 1). simpl (INR 0).
    replace (2 * PI - 0) with (2 * PI) by ring. ring. }
  rewrite Hdt, theta_grid_steps, Hm. fold h. rewrite !map_map.
  assert (Hre : Rsum (map (fun x => k * (a * sin (INR x * h)) * sin (INR x * h))
                          (seq 0 (S N)))
                = k * a * (INR N / 2)).
  { rewrite (map_ext _ (fun x => (k * a / 2) * (fun _ => 1) x
                                 + (- (k * a / 2)) * cos (2 * (INR x * h)))).
    - rewrite (Rsum_linear (k * a / 2) (- (k * a / 2)) (fun _ => 1)
                 (fun x => cos (2 * (INR x * h)))).
      rewrite Hcos, Rsum_const, length_seq, S_INR. field.
    - intros x. rewrite cos_2a_sin. field. }
  assert (Him : Rsum (map (fun x => k * (a * sin (INR x * h)) * cos (INR x * h))
                          (seq 0 (S N)))
                = 0).
  { rewrite (map_ext _ (fun x => (k * a / 2) * sin (2 * (INR x * h))
                                 + 0 * (fun _ => 0) x)).
    - rewrite (Rsum_linear (k * a / 2) 0 (fun x => sin (2 * (INR x * h)))
                 (fun _ => 0)).
      rewrite Hsin. ring.
    - intros x. rewrite sin_2a. field. }
  rewrite Hre, Him. do 5 f_equal.
  - unfold h. rewrite HNR. field. lra.
  - ring.
Qed.

(** X18: on a linear gain [f(x) = k x] the numerical estimate is exact:
    with at least four sample points and a positive amplitude it is the
    complex number [k + 0j]. *)
Theorem describing_function_linear_gain (k a : R) (n : Z)
  (zero_check try_method : bool) :
  (4 <= n)%Z -> 0 < a ->
  describing_function (Callable (fun x => k * x)) (Scalar a) n zero_check try_method
  = Ret (Callable (fun x => k * x), Scalar (PyComplex (mkC k 0))).
Proof. exact (linear_gain_estimate k a n zero_check try_method). Qed.

Lemma describing_function_linear_gain_witness :
  describing_function (Callable (fun x => 3 * x)) (Scalar 2) 100 true true
  = Ret (Callable (fun x => 3 * x), Scalar (PyComplex (mkC 3 0))).
Proof. apply (describing_function_linear_gain 3 2 100 true true); [lia | lra]. Defined.

(** ** _find_intersection: symmetry, degenerate input, translation *)

(** The value of [_find_intersection] as one expression; the assertion
    never fires. *)
Lemma find_intersection_value (L1a L1b L2a L2b : complex) :
  let L1t := Csub L1b L1a in
  let L2t := Csub L2b L2a in
  let b := Csub L1a L2a in
  let detM := im L1t * re L2t - re L1t * im L2t in
  let s1 := (im L2t * re b - re L2t * im b) / detM in
  let s2 := (im L1t * re b - re L1t * im b) / detM in
  _find_intersection L1a L1b L2a L2b
  = Ret (if Rltb (Rabs detM) detM_tolerance then None
         else if Rltb s1 0 || Rltb 1 s1 then None
         else if Rltb s2 0 || Rltb 1 s2 then None
         else Some (s1, s2)).
Proof.
  intros L1t L2t b detM s1 s2.
  destruct (find_intersection_cases L1a L1b L2a L2b) as (Hnone & Hsome & _).
  fold L1t L2t b detM s1 s2 in Hnone, Hsome.
  destruct (Rltb_spec (Rabs detM) detM_tolerance) as [Hsmall | Hbig]; [auto |].
  destruct (Rltb_spec s1 0); [auto |].
  destruct (Rltb_spec 1 s1); [auto 6 |].
  destruct (Rltb_spec s2 0); [auto 6 |].
  destruct (Rltb_spec 1 s2); [auto 6 |].
  cbn [orb]. apply Hsome; lra.
Qed.

(** X19: exchanging the two segments exchanges the two parameters:
    [_find_intersection(L2a, L2b, L1a, L1b)] is [None] exactly when
    [_find_intersection(L1a, L1b, L2a, L2b)] is, and otherwise the pair
    in the other order. *)
Theorem find_intersection_swap (L1a L1b L2a L2b : complex) :
  exists r,
    _find_intersection L1a L1b L2a L2b = Ret r /\
    _find_intersection L2a L2b L1a L1b
    = Ret (option_map (fun p : R * R => (snd p, fst p)) r).
Proof.
  rewrite (find_intersection_value L1a L1b L2a L2b).
  rewrite (find_intersection_value L2a L2b L1a L1b).
  destruct L1a as [x1 y1], L1b as [x2 y2], L2a as [u1 v1], L2b as [u2 v2].
  cbv zeta. unfold Csub; cbn [re im].
  set (d := (y2 - y1) * (u2 - u1) - (x2 - x1) * (v2 - v1)).
  replace ((v2 - v1) * (x2 - x1) - (u2 - u1) * (y2 - y1)) with (- d)
    by (unfold d; ring).
  rewrite Rabs_Ropp.
  eexists. split; [reflexivity |].
  pose proof detM_tolerance_pos as Htol.
  destruct (Rltb_spec (Rabs d) detM_tolerance) as [Hsmall | Hbig]; [reflexivity |].
  assert (Hd : d <> 0).
  { intros H0. rewrite H0, Rabs_R0 in Hbig. lra. }
  replace (((y2 - y1) * (u1 - x1) - (x2 - x1) * (v1 - y1)) / - d)
    with (((y2 - y1) * (x1 - u1) - (x2 - x1) * (y1 - v1)) / d) by (field; exact Hd).
  replace (((v2 - v1) * (u1 - x1) - (u2 - u1) * (v1 - y1)) / - d)
    with (((v2 - v1) * (x1 - u1) - (u2 - u1) * (y1 - v1)) / d) by (field; exact Hd).
  set (s1 := ((v2 - v1) * (x1 - u1) - (u2 - u1) * (y1 - v1)) / d).
  set (s2 := ((y2 - y1) * (x1 - u1) - (x2 - x1) * (y1 - v1)) / d).
  destruct (Rltb s1 0 || Rltb 1 s1), (Rltb s2 0 || Rltb 1 s2); reflexivity.
Qed.

(** X20: a segment of length zero, and two parallel segments (also two
    that lie on one line and overlap), give [None]. *)
Theorem find_intersection_parallel (L1a L1b L2a L2b : complex) :
  L1b = L1a \/ (exists k, Csub L2b L2a = Cmul (RtoC k) (Csub L1b L1a)) ->
  _find_intersection L1a L1b L2a L2b = Ret None.
Proof.
  intros Hpar. rewrite find_intersection_value. cbv zeta.
  rewrite Rltb_true; [reflexivity |].
  replace (im (Csub L1b L1a) * re (Csub L2b L2a) - re (Csub L1b L1a) * im (Csub L2b L2a))
    with 0.
  - rewrite Rabs_R0. apply detM_tolerance_pos.
  - destruct Hpar as [-> | [k ->]].
    + unfold Csub; cbn [re im]. ring.
    + unfold Cmul, RtoC; cbn [re im]. ring.
Qed.

Lemma find_intersection_parallel_witness :
  _find_intersection (mkC 0 0) (mkC 2 0) (mkC 1 0) (mkC 3 0) = Ret None.
Proof.
  apply (find_intersection_parallel (mkC 0 0) (mkC 2 0) (mkC 1 0) (mkC 3 0)).
  right. exists 1. unfold Csub, Cmul, RtoC; cbn [re im]. f_equal; ring.
Defined.

(** X21: moving the four end points by one and the same complex number
    does not change the result. *)
Theorem find_intersection_translate (L1a L1b L2a L2b d : complex) :
  _find_intersection (Cadd L1a d) (Cadd L1b d) (Cadd L2a d) (Cadd L2b d)
  = _find_intersection L1a L1b L2a L2b.
Proof.
  assert (Hsub : forall z w, Csub (Cadd z d) (Cadd w d) = Csub z w).
  { intros z w. unfold Csub, Cadd; cbn [re im]. f_equal; ring. }
  rewrite !find_intersection_value. cbv zeta. rewrite !Hsub. reflexivity.
Qed.

(** ** describing_function_plot: how many pairs, and where they lie *)

Lemma reshape_like_shape {A B : Type} (x : shaped A) (l : list B) (v : shaped B) :
  reshape_like x l = Ret v ->
  List.length (atleast_1d v) = List.length (atleast_1d x) /\ atleast_1d v = l.
Proof.
  destruct x as [a | xs]; cbn [reshape_like atleast_1d].
  - destruct l as [| b [| b' l]]; try discriminate.
    intros Heq. injection Heq as <-. split; reflexivity.
  - destruct (Nat.eqb_spec (List.length xs) (List.length l)) as [Hlen | _];
      try discriminate.
    intros Heq. injection Heq as <-. cbn [atleast_1d]. auto.
Qed.

(** Whatever the branch, a value returned by [describing_function] has
    one entry per amplitude. *)
Lemma describing_function_length (F : fcn) (amp : shaped R) (n : Z)
  (zero_check try_method : bool) (F' : fcn) (v : shaped pyval) :
  describing_function F amp n zero_check try_method = Ret (F', v) ->
  List.length (atleast_1d v) = List.length (atleast_1d amp).
Proof.
  unfold describing_function.
  destruct (if try_method then fcn_method F else None) as [m |].
  - destruct (mapM m (atleast_1d amp)) as [df | |]; try discriminate. cbn [bind].
    destruct (reshape_like amp df) as [w | |] eqn:Hw; try discriminate. cbn [bind].
    intros Heq. injection Heq as _ <-. now apply reshape_like_shape in Hw.
  - destruct (linspace 0 (2 * PI) n) as [theta | |]; try discriminate. cbn [bind].
    destruct (getitem theta 1) as [t1 | |]; try discriminate. cbn [bind].
    destruct (getitem theta 0) as [t0 | |]; try discriminate. cbn [bind].
    destruct (array_min (atleast_1d amp)) as [amin | |]; try discriminate. cbn [bind].
    destruct (fcn_calls F (map (Rmult amin) (map sin theta))) as [[F0 ev] | |];
      try discriminate. cbn [bind].
    destruct (df_loop zero_check (map sin theta) (map cos theta) (t1 - t0) F0
                (atleast_1d amp)) as [[F1 df] | |]; try discriminate. cbn [bind].
    destruct (reshape_like amp df) as [w | |] eqn:Hw; try discriminate. cbn [bind].
    intros Heq. injection Heq as _ <-. now apply reshape_like_shape in Hw.
Qed.

(** A loop whose every pass adds at most [c] to a measure of the state
    adds at most [c] times the number of passes. *)
Lemma foldM_count {A S : Type} (size : S -> nat) (c : nat) (f : S -> A -> outcome S) :
  (forall s a s', f s a = Ret s' -> (size s' <= size s + c)%nat) ->
  forall l s s', foldM f l s = Ret s' ->
                 (size s' <= size s + List.length l * c)%nat.
Proof.
  intros Hstep l. induction l as [| a l IH]; intros s s' Hrun; cbn [foldM] in Hrun.
  - injection Hrun as <-. cbn [List.length]. lia.
  - destruct (f s a) as [s1 | |] eqn:Hf; try discriminate. cbn [bind] in Hrun.
    specialize (Hstep s a s1 Hf). specialize (IH s1 s' Hrun).
    cbn [List.length]. lia.
Qed.

(** A loop keeps what every pass keeps. *)
Lemma foldM_invariant {A S : Type} (P : S -> Prop) (f : S -> A -> outcome S) :
  (forall s a s', P s -> f s a = Ret s' -> P s') ->
  forall l s s', P s -> foldM f l s = Ret s' -> P s'.
Proof.
  intros Hstep l. induction l as [| a l IH]; intros s s' Hs Hrun; cbn [foldM] in Hrun.
  - now injection Hrun as <-.
  - destruct (f s a) as [s1 | |] eqn:Hf; try discriminate. cbn [bind] in Hrun.
    eapply IH; [| exact Hrun]. eapply Hstep; eassumption.
Qed.

Section Locator.

Variable H : complex -> complex.
Variable nyquist_plot : option (list R) -> list (R * R * R).
Variable minimize : (R * R -> outcome R) -> R * R -> OptimizeResult.

Lemma locate_pair_adds_one (F : fcn) (a : list R) (N_vals H_vals : list complex)
  (H_omega : list R) (refine : bool) (label : string) (st st' : plot_state)
  (i j : nat) :
  locate_pair H minimize F a N_vals H_vals H_omega refine label st i j = Ret st' ->
  (List.length (intersections st') <= List.length (intersections st) + 1)%nat.
Proof.
  unfold locate_pair.
  destruct (getitem N_vals i) as [n0 | |]; try discriminate.
  destruct (getitem N_vals (i + 1)) as [n1 | |]; try discriminate.
  destruct (getitem H_vals j) as [h0 | |]; try discriminate.
  destruct (getitem H_vals (j + 1)) as [h1 | |]; try discriminate.
  cbn [bind].
  destruct (_find_intersection n0 n1 h0 h1) as [[[s_amp s_omega] |] | |];
    try discriminate; cbn [bind].
  - destruct (getitem a i) as [a0 | |]; try discriminate.
    destruct (getitem a (i + 1)) as [a1 | |]; try discriminate.
    destruct (getitem H_omega j) as [w0 | |]; try discriminate.
    destruct (getitem H_omega (j + 1)) as [w1 | |]; try discriminate.
    cbn [bind].
    destruct (if refine
              then
                let res := minimize (_cost H F)
                             ((1 - s_amp) * a0 + s_amp * a1,
                              (1 - s_omega) * w0 + s_omega * w1) in
                if negb (success res)
                then ((1 - s_amp) * a0 + s_amp * a1,
                      (1 - s_omega) * w0 + s_omega * w1, [refine_warning])
                else (fst (res_x res), snd (res_x res), [])
              else ((1 - s_amp) * a0 + s_amp * a1,
                    (1 - s_omega) * w0 + s_omega * w1, [])) as [[af wf] ws].
    intros Heq. injection Heq as <-. cbn [intersections].
    rewrite length_app. cbn [List.length]. lia.
  - intros Heq. injection Heq as <-. lia.
Qed.

(** X22: the locator, with or without refinement, returns at most one
    pair for each pair of segments: at most [(len(a) - 1) (len(H) - 1)]
    pairs, and none at all when there are fewer than two amplitudes or
    fewer than two frequency samples. *)
Theorem describing_function_plot_count (F : fcn) (a : list R)
  (omega : option (list R)) (refine : bool) (label : string) (st : plot_state) :
  describing_function_plot H nyquist_plot minimize F a omega refine label = Ret st ->
  (List.length (intersections st)
   <= (List.length a - 1) * (List.length (nyquist_plot omega) - 1))%nat /\
  ((List.length a <= 1)%nat \/ (List.length (nyquist_plot omega) <= 1)%nat ->
   intersections st = []).
Proof.
  intros Hrun.
  assert (Hcount : (List.length (intersections st)
                    <= (List.length a - 1) * (List.length (nyquist_plot omega) - 1))%nat).
  { revert Hrun. unfold describing_function_plot.
    destruct (describing_function_default F (Array a)) as [[F1 dfv] | |] eqn:Hdf;
      try discriminate. cbn [bind].
    unfold describing_function_default in Hdf.
    apply describing_function_length in Hdf. cbn [atleast_1d] in Hdf.
    destruct (mapM neg_recip (atleast_1d dfv)) as [N_vals | |] eqn:HN;
      try discriminate. cbn [bind].
    apply mapM_length in HN. rewrite length_map.
    intros Hrun.
    apply (foldM_count (fun s => List.length (intersections s))
             ((List.length (nyquist_plot omega) - 1) * 1)) in Hrun.
    - rewrite length_seq in Hrun. cbn [intersections List.length] in Hrun.
      rewrite HN, Hdf in Hrun. lia.
    - intros s i s' Hinner.
      apply (foldM_count (fun s => List.length (intersections s)) 1) in Hinner.
      + rewrite length_seq in Hinner. exact Hinner.
      + intros s0 j s0' Hpair. eapply locate_pair_adds_one. exact Hpair. }
  split; [exact Hcount |].
  intros Hfew. apply length_zero_iff_nil.
  destruct Hfew as [Hfew | Hfew].
  - replace (List.length a - 1)%nat with 0%nat in Hcount by lia. lia.
  - replace (List.length (nyquist_plot omega) - 1)%nat with 0%nat in Hcount by lia. lia.
Qed.

End Locator.

Lemma describing_function_plot_count_witness :
  exists st,
    describing_function_plot example_plant example_nyquist failing_minimize
      (RelayHysteresis (relay_init PI 3)) [3; 5] None false default_label = Ret st /\
    (List.length (intersections st)
     <= (List.length [3; 5] - 1) * (List.length (example_nyquist None) - 1))%nat.
Proof.
  destruct example_coarse_run as (st & Hrun & _).
  exists st. split; [exact Hrun |].
  apply (describing_function_plot_count example_plant example_nyquist failing_minimize
           (RelayHysteresis (relay_init PI 3)) [3; 5] None false default_label st Hrun).
Defined.



Section Coarse.

Variable H : complex -> complex.
Variable nyquist_plot : option (list R) -> list (R * R * R).
Variable minimize : (R * R -> outcome R) -> R * R -> OptimizeResult.


(** X24: the locator draws the curve of [-1/N(a)] first and then, when
    [label] is not empty, one text for each pair it returns, in order,
    placed at [H(j omega)] of the pair and carrying the pair; with an
    empty label it draws the curve only. *)
Theorem describing_function_plot_labels (F : fcn) (a : list R)
  (omega : option (list R)) (refine : bool) (label : string) (st : plot_state) :
  describing_function_plot H nyquist_plot minimize F a omega refine label = Ret st ->
  exists N_vals,
    List.length N_vals = List.length a /\
    drawn st
    = PlotCurve N_vals
      :: (if String.eqb label EmptyString then []
          else map (fun p : R * R =>
                      PlotText (H (Cmul Cj (RtoC (snd p)))) label (fst p) (snd p))
                   (intersections st)).
Proof.
  unfold describing_function_plot.
  destruct (describing_function_default F (Array a)) as [[F1 dfv] | |] eqn:Hdf;
    try discriminate. cbn [bind].
  unfold describing_function_default in Hdf.
  apply describing_function_length in Hdf. cbn [atleast_1d] in Hdf.
  destruct (mapM neg_recip (atleast_1d dfv)) as [N_vals | |] eqn:HN; try discriminate.
  apply mapM_length in HN.
  cbn [bind]. intros Hrun. exists N_vals. split; [congruence |].
  set (texts := fun l : list (R * R) =>
                  if String.eqb label EmptyString then []
                  else map (fun p : R * R =>
                              PlotText (H (Cmul Cj (RtoC (snd p)))) label (fst p) (snd p))
                           l).
  set (P := fun s : plot_state => drawn s = PlotCurve N_vals :: texts (intersections s)).
  change (P st).
  eapply (foldM_invariant P); [| | exact Hrun].
  - intros s i s' Hs Hinner.
    eapply (foldM_invariant P); [| exact Hs | exact Hinner].
    clear. intros s j s' Hs. unfold locate_pair.
    destruct (getitem N_vals i) as [n0 | |]; try discriminate.
    destruct (getitem N_vals (i + 1)) as [n1 | |]; try discriminate.
    destruct (getitem _ j) as [h0 | |]; try discriminate.
    destruct (getitem _ (j + 1)) as [h1 | |]; try discriminate.
    cbn [bind].
    destruct (_find_intersection n0 n1 h0 h1) as [[[s_amp s_omega] |] | |];
      try discriminate; cbn [bind].
    + destruct (getitem a i) as [a0 | |]; try discriminate.
      destruct (getitem a (i + 1)) as [a1 | |]; try discriminate.
      destruct (getitem _ j) as [w0 | |]; try discriminate.
      destruct (getitem _ (j + 1)) as [w1 | |]; try discriminate.
      cbn [bind].
      assert (Hstep : forall af wf (ws : list warning),
                 P (mkState (intersections s ++ [(af, wf)]) (warnings s ++ ws)
                      (drawn s ++
                       (if String.eqb label EmptyString then []
                        else [PlotText (H (Cmul Cj (RtoC wf))) label af wf])))).
      { intros af wf ws. unfold P in *. cbn [drawn intersections].
        rewrite Hs. unfold texts. destruct (String.eqb label EmptyString).
        - reflexivity.
        - rewrite map_app. reflexivity. }
      destruct refine; [destruct (negb (success _)) |];
        intros Heq; injection Heq as <-; apply Hstep.
    + intros Heq. injection Heq as <-. exact Hs.
  - unfold P, texts. cbn [drawn intersections map].
    destruct (String.eqb label EmptyString); reflexivity.
Qed.

End Coarse.


Lemma describing_function_plot_labels_witness :
  exists st N_vals,
    describing_function_plot example_plant example_nyquist failing_minimize
      (RelayHysteresis (relay_init PI 3)) [3; 5] None false default_label = Ret st /\
    List.length N_vals = 2%nat /\
    drawn st
    = [PlotCurve N_vals;
       PlotText (example_plant (Cmul Cj (RtoC (5 / 4)))) default_label 4 (5 / 4)].
Proof.
  destruct example_coarse_run as (st & Hrun & Hint).
  destruct (describing_function_plot_labels example_plant example_nyquist
              failing_minimize (RelayHysteresis (relay_init PI 3)) [3; 5] None false
              default_label st Hrun) as (N_vals & Hlen & Hdrawn).
  exists st, N_vals. split; [exact Hrun |]. split; [exact Hlen |].
  rewrite Hdrawn, Hint. reflexivity.
Defined.

(** ** The estimator inside the locator *)

(** The numerical branch returns only for non-negative amplitudes. *)
Lemma numerical_branch_nonneg (F : fcn) (amp : shaped R) (n : Z)
  (zero_check try_method : bool) (F' : fcn) (v : shaped pyval) :
  numerical_branch F try_method ->
  describing_function F amp n zero_check try_method = Ret (F', v) ->
  Forall (fun a => 0 <= a) (atleast_1d amp).
Proof.
  intros Hnum. unfold describing_function. rewrite Hnum.
  destruct (linspace 0 (2 * PI) n) as [theta | |]; try discriminate. cbn [bind].
  destruct (getitem theta 1) as [t1 | |]; try discriminate. cbn [bind].
  destruct (getitem theta 0) as [t0 | |]; try discriminate. cbn [bind].
  destruct (array_min (atleast_1d amp)) as [amin | |]; try discriminate. cbn [bind].
  destruct (fcn_calls F (map (Rmult amin) (map sin theta))) as [[F0 ev] | |];
    try discriminate. cbn [bind].
  destruct (df_loop zero_check (map sin theta) (map cos theta) (t1 - t0) F0
              (atleast_1d amp)) as [[F1 df] | |] eqn:Hloop; try discriminate.
  intros _. eapply df_loop_nonneg. exact Hloop.
Qed.

(** X25: for a plain function the locator returns only when every
    amplitude of [a] is non-negative: a negative amplitude makes the
    estimator raise, and the locator with it, before anything is
    drawn. *)
Theorem describing_function_plot_callable_amplitudes
  (H : complex -> complex) (nyquist_plot : option (list R) -> list (R * R * R))
  (minimize : (R * R -> outcome R) -> R * R -> OptimizeResult)
  (f : R -> R) (a : list R) (omega : option (list R)) (refine : bool)
  (label : string) :
  (forall st,
     describing_function_plot H nyquist_plot minimize (Callable f) a omega refine label
     = Ret st ->
     Forall (fun x => 0 <= x) a) /\
  (forall x, x < 0 ->
     describing_function_plot H nyquist_plot minimize (Callable f) [x] omega refine label
     = Raise negative_error).
Proof.
  split.
  - intros st. unfold describing_function_plot.
    destruct (describing_function_default (Callable f) (Array a))
      as [[F1 dfv] | |] eqn:Hdf; try discriminate.
    intros _. unfold describing_function_default in Hdf.
    apply (numerical_branch_nonneg (Callable f) (Array a) 100 true true F1 dfv eq_refl Hdf).
  - intros x Hx. unfold describing_function_plot, describing_function_default.
    rewrite describing_function_numerical by (reflexivity || lia).
    unfold numerical_estimate. cbn [atleast_1d array_min fold_left bind].
    rewrite fcn_calls_callable. cbn [bind df_loop]. rcmp. reflexivity.
Qed.

Lemma describing_function_plot_callable_amplitudes_witness :
  describing_function_plot example_plant example_nyquist failing_minimize
    (Callable (fun x => x * x * x)) [-1] None true default_label
  = Raise negative_error.
Proof.
  apply (describing_function_plot_callable_amplitudes example_plant example_nyquist
           failing_minimize (fun x => x * x * x) [-1] None true default_label).
  lra.
Defined.

(** X26: for a linear gain [f(x) = k x] the cost minimized by the
    refinement is [|1 + k H(j omega)|^2] at every positive amplitude: it
    does not depend on the amplitude. *)
Theorem cost_linear_gain (H : complex -> complex) (k a w : R) :
  0 < a ->
  _cost H (Callable (fun x => k * x)) (a, w)
  = Ret ((1 + k * re (H (mkC 0 w))) ^ 2 + (k * im (H (mkC 0 w))) ^ 2).
Proof.
  intros Ha. unfold _cost, describing_function_default. cbn [fst snd].
  rewrite linear_gain_estimate by (lia || assumption). cbn [bind Cmul_pyval].
  assert (Hj : Cmul Cj (RtoC w) = mkC 0 w).
  { unfold Cmul, Cj, RtoC; cbn [re im]. f_equal; ring. }
  rewrite Hj. f_equal. unfold Cabs, Cadd, Cmul, RtoC; cbn [re im].
  rewrite pow2_sqrt by (apply Rplus_le_le_0_compat; apply Rle_0_sqr). ring.
Qed.

Lemma cost_linear_gain_witness :
  _cost example_plant (Callable (fun x => 2 * x)) (3, 1)
  = Ret ((1 + 2 * re (example_plant (mkC 0 1))) ^ 2
         + (2 * im (example_plant (mkC 0 1))) ^ 2).
Proof. apply (cost_linear_gain example_plant 2 3 1). lra. Defined.

(** ** describing_function on an array of amplitudes *)

(** On a plain function one pass of the loop over the amplitudes depends
    on its amplitude only. *)
Lemma df_loop_callable_step (f : R -> R) (zero_check : bool)
  (sin_theta cos_theta : list R) (dtheta a : R) :
  exists o : outcome pyval,
    forall rest,
      df_loop zero_check sin_theta cos_theta dtheta (Callable f) (a :: rest)
      = (v <- o ;;
         '(F2, df) <- df_loop zero_check sin_theta cos_theta dtheta (Callable f) rest ;;
         Ret (F2, v :: df)).
Proof.
  cbn [df_loop]. destruct (Reqb a 0).
  - destruct zero_check; cbn [fcn_call bind].
    + destruct (negb (Reqb (f 0) 0)).
      * exists (Raise zero_error). reflexivity.
      * exists (Ret (PyFloat 1)). reflexivity.
    + exists (Ret (PyFloat 1)). reflexivity.
  - destruct (Rltb a 0).
    + exists (Raise negative_error). reflexivity.
    + rewrite fcn_calls_callable. cbn [bind]. eexists (Ret _). reflexivity.
Qed.

Lemma df_loop_callable_elementwise (f : R -> R) (zero_check : bool)
  (sin_theta cos_theta : list R) (dtheta : R) (amps : list R) :
  forall vs,
    df_loop zero_check sin_theta cos_theta dtheta (Callable f) amps
    = Ret (Callable f, vs)
    <-> Forall2 (fun a v =>
                   df_loop zero_check sin_theta cos_theta dtheta (Callable f) [a]
                   = Ret (Callable f, [v])) amps vs.
Proof.
  induction amps as [| a amps IH]; intros vs.
  - cbn [df_loop]. split.
    + intros Heq. injection Heq as <-. constructor.
    + intros Hall. inversion Hall. reflexivity.
  - destruct (df_loop_callable_step f zero_check sin_theta cos_theta dtheta a)
      as (o & Hstep).
    assert (Hone : df_loop zero_check sin_theta cos_theta dtheta (Callable f) [a]
                   = (v <- o ;; Ret (Callable f, [v])))
      by (rewrite (Hstep []); destruct o; reflexivity).
    rewrite (Hstep amps).
    split.
    + destruct o as [v | |]; try discriminate. cbn [bind] in *.
      destruct (df_loop zero_check sin_theta cos_theta dtheta (Callable f) amps)
        as [[F2 df] | |] eqn:Hrest; try discriminate.
      cbn [bind]. intros Heq. injection Heq as -> <-.
      constructor; [exact Hone | now apply IH].
    + intros Hall. inversion Hall as [| ? v ? vs' Hhead Htail]; subst.
      rewrite Hone in Hhead.
      destruct o as [v0 | |]; try discriminate.
      cbn [bind] in Hhead |- *. injection Hhead as ->.
      apply IH in Htail. rewrite Htail. reflexivity.
Qed.

Lemma Forall2_equiv {A B : Type} (P Q : A -> B -> Prop) (l : list A) (l' : list B) :
  (forall a b, P a b <-> Q a b) -> (Forall2 P l l' <-> Forall2 Q l l').
Proof.
  intros Hpq. split; intros Hall; induction Hall; constructor;
    try assumption; now apply Hpq.
Qed.

(** X27: for a plain function (which has no state), at least two sample
    points and a non-empty array of amplitudes, the call on the array
    returns the array [vs] exactly when the calls on the single
    amplitudes return the entries of [vs], one by one. *)
Theorem describing_function_callable_array (f : R -> R) (amps : list R)
  (vs : list pyval) (n : Z) (zero_check try_method : bool) :
  (2 <= n)%Z -> amps <> [] ->
  (describing_function (Callable f) (Array amps) n zero_check try_method
   = Ret (Callable f, Array vs)
   <-> Forall2 (fun a v =>
                  describing_function (Callable f) (Scalar a) n zero_check try_method
                  = Ret (Callable f, Scalar v)) amps vs).
Proof.
  intros Hn Hne.
  assert (Hscalar : forall a v,
             describing_function (Callable f) (Scalar a) n zero_check try_method
             = Ret (Callable f, Scalar v)
             <-> df_loop zero_check (map sin (theta_grid n)) (map cos (theta_grid n))
                   (dtheta_grid n) (Callable f) [a] = Ret (Callable f, [v])).
  { intros a v.
    rewrite describing_function_numerical
      by (assumption || apply callable_has_no_method).
    unfold numerical_estimate. cbn [atleast_1d array_min fold_left bind].
    rewrite fcn_calls_callable. cbn [bind].
    destruct (df_loop zero_check (map sin (theta_grid n)) (map cos (theta_grid n))
                (dtheta_grid n) (Callable f) [a]) as [[F1 df] | |] eqn:Hloop;
      cbn [bind]; try (split; discriminate).
    pose proof (df_loop_callable _ _ _ _ _ _ _ _ Hloop) as ->.
    destruct df as [| v1 [| v2 df]]; cbn [reshape_like bind];
      split; try discriminate; intros Heq; injection Heq as <-; reflexivity. }
  rewrite describing_function_numerical
    by (assumption || apply callable_has_no_method).
  unfold numerical_estimate. cbn [atleast_1d].
  destruct amps as [| a0 amps0]; [contradiction |].
  cbn [array_min bind]. rewrite fcn_calls_callable. cbn [bind].
  set (amps := a0 :: amps0) in *.
  rewrite (Forall2_equiv _ _ amps vs Hscalar).
  rewrite <- df_loop_callable_elementwise.
  destruct (df_loop zero_check (map sin (theta_grid n)) (map cos (theta_grid n))
              (dtheta_grid n) (Callable f) amps) as [[F1 df] | |] eqn:Hloop;
    cbn [bind]; try (split; discriminate).
  pose proof (df_loop_callable _ _ _ _ _ _ _ _ Hloop) as ->.
  assert (Hlen : List.length df = List.length amps).
  { apply df_loop_callable_elementwise in Hloop.
    symmetry. eapply Forall2_length. exact Hloop. }
  cbn [reshape_like]. rewrite <- Hlen, Nat.eqb_refl. cbn [bind].
  split; intros Heq; injection Heq as <-; reflexivity.
Qed.

Lemma describing_function_callable_array_witness :
  describing_function (Callable (fun x => 3 * x)) (Array [2; 5]) 100 true true
  = Ret (Callable (fun x => 3 * x), Array [PyComplex (mkC 3 0); PyComplex (mkC 3 0)]).
Proof.
  apply (describing_function_callable_array (fun x => 3 * x) [2; 5]
           [PyComplex (mkC 3 0); PyComplex (mkC 3 0)] 100 true true);
    [lia | discriminate |].
  repeat constructor; apply linear_gain_estimate; (lia || lra).
Defined.

(** ** _find_intersection: touching end points *)

(** X28: the bounds 0 and 1 of the parameters are inclusive.  Two
    segments that are not near-parallel and start at one point intersect
    there, with parameters [(0, 0)]; when the second starts where the
    first ends, the parameters are [(1, 0)]. *)
Theorem find_intersection_end_points (L1a L1b L2a L2b : complex) :
  let L1t := Csub L1b L1a in
  let L2t := Csub L2b L2a in
  detM_tolerance <= Rabs (im L1t * re L2t - re L1t * im L2t) ->
  (L2a = L1a -> _find_intersection L1a L1b L2a L2b = Ret (Some (0, 0))) /\
  (L2a = L1b -> _find_intersection L1a L1b L2a L2b = Ret (Some (1, 0))).
Proof.
  intros L1t L2t Hdet.
  pose proof detM_tolerance_pos as Htol.
  assert (Hd : im L1t * re L2t - re L1t * im L2t <> 0).
  { intros H0. rewrite H0, Rabs_R0 in Hdet. lra. }
  destruct (find_intersection_cases L1a L1b L2a L2b) as (_ & Hsome & _).
  fold L1t L2t in Hsome.
  split; intros Heq.
  - assert (H1 : (im L2t * re (Csub L1a L2a) - re L2t * im (Csub L1a L2a))
                 / (im L1t * re L2t - re L1t * im L2t) = 0).
    { rewrite Heq. unfold Csub; cbn [re im]. field. exact Hd. }
    assert (H2 : (im L1t * re (Csub L1a L2a) - re L1t * im (Csub L1a L2a))
                 / (im L1t * re L2t - re L1t * im L2t) = 0).
    { rewrite Heq. unfold Csub; cbn [re im]. field. exact Hd. }
    rewrite H1, H2 in Hsome. apply Hsome; [exact Hdet | lra | lra].
  - assert (H1 : (im L2t * re (Csub L1a L2a) - re L2t * im (Csub L1a L2a))
                 / (im L1t * re L2t - re L1t * im L2t) = 1).
    { unfold L1t in *. rewrite Heq in *. unfold L2t in *.
      unfold Csub in *; cbn [re im] in *. field. exact Hd. }
    assert (H2 : (im L1t * re (Csub L1a L2a) - re L1t * im (Csub L1a L2a))
                 / (im L1t * re L2t - re L1t * im L2t) = 0).
    { unfold L1t in *. rewrite Heq in *. unfold L2t in *.
      unfold Csub in *; cbn [re im] in *. field. exact Hd. }
    rewrite H1, H2 in Hsome. apply Hsome; [exact Hdet | lra | lra].
Qed.

Lemma find_intersection_end_points_witness :
  _find_intersection (mkC 0 0) (mkC 1 0) (mkC 1 0) (mkC 1 1) = Ret (Some (1, 0)).
Proof.
  apply (find_intersection_end_points (mkC 0 0) (mkC 1 0) (mkC 1 0) (mkC 1 1)).
  - unfold Csub; cbn [re im].
    replace ((0 - 0) * (1 - 1) - (1 - 0) * (1 - 0)) with (-1) by ring.
    rewrite Rabs_left by lra. unfold detM_tolerance. lra.
  - reflexivity.
Defined.
